(** * RIS steering / calibration engine: a shallow embedding

    Source: [Utilities/RIS_Voltage_map.py] (window fitting, phase steering,
    phase-to-voltage mapping, calibration catalog).

    Numbers.  The program computes with IEEE doubles.  Here a double is
    either [NaN] or a finite value, and a finite value is an exact rational:
    rounding error, infinities and the sign of zero are not modelled.  NaN is
    kept because two branches of the program are decided by how comparisons
    treat it. *)

From Stdlib Require Import QArith Qround Qabs Qpower Lqa Lia ZArith List Bool Arith String.
From Stdlib Require Import Sorting.Sorted Sorting.Permutation.
Import ListNotations.

Open Scope Q_scope.

(** ** Python exceptions and the result of a call *)

Inductive float64 : Type :=
| NaN : float64
| Fin : Q -> float64.

(** The exceptions the modelled code can raise.  [ValueError_window w s] is the
    [ValueError] of [_rotate_into_window]; its message is a fixed text with
    two numbers in it: the window width [w], printed as it is, and the span
    formatted with [:.2f], which is [s].
    [ValueError_truth] is numpy's "truth value of an array with more than one
    element is ambiguous". *)
Inductive exn : Type :=
| IndexError : exn
| KeyError : exn
| FileNotFoundError : exn
| ValueError_empty_argmax : exn
| ValueError_truth : exn
| ValueError_window (window_width span_2f : float64) : exn.

Inductive result (A : Type) : Type :=
| Ok : A -> result A
| Raise : exn -> result A.
Arguments Ok {A} _.
Arguments Raise {A} _.

Definition bind {A B : Type} (r : result A) (k : A -> result B) : result B :=
  match r with
  | Ok a => k a
  | Raise e => Raise e
  end.

Notation "x <- e ;; k" := (bind e (fun x => k))
  (at level 61, e at next level, right associativity).
Notation "' p <- e ;; k" := (bind e (fun p => k))
  (at level 61, p pattern, e at next level, right associativity).

(** ** Double arithmetic *)

Module F.

Definition is_nan (x : float64) : bool :=
  match x with NaN => true | Fin _ => false end.

Definition lift1 (f : Q -> Q) (x : float64) : float64 :=
  match x with Fin a => Fin (f a) | NaN => NaN end.

Definition lift2 (f : Q -> Q -> Q) (x y : float64) : float64 :=
  match x, y with Fin a, Fin b => Fin (f a b) | _, _ => NaN end.

Definition add := lift2 Qplus.
Definition sub := lift2 Qminus.
Definition mul := lift2 Qmult.
Definition neg := lift1 Qopp.

(** [x / y]; a zero divisor gives no finite value. *)
Definition div (x y : float64) : float64 :=
  match x, y with
  | Fin a, Fin b => if Qeq_bool b 0 then NaN else Fin (a / b)
  | _, _ => NaN
  end.

(** Comparisons are false as soon as one side is NaN. *)
Definition leb (x y : float64) : bool :=
  match x, y with Fin a, Fin b => Qle_bool a b | _, _ => false end.

Definition ltb (x y : float64) : bool :=
  match x, y with Fin a, Fin b => negb (Qle_bool b a) | _, _ => false end.

Definition eqb (x y : float64) : bool :=
  match x, y with Fin a, Fin b => Qeq_bool a b | _, _ => false end.

(** [x ** n] for a Python int [n >= 0]; [pow(x, 0)] is [1.0] for every [x],
    NaN included. *)
Definition pow (x : float64) (n : nat) : float64 :=
  match n with
  | O => Fin 1
  | _ => lift1 (fun a => Qpower a (Z.of_nat n)) x
  end.

(** Same value: the equality of the model (two NaN are the same value here,
    unlike under [eqb]). *)
Definition same (x y : float64) : Prop :=
  match x, y with
  | Fin a, Fin b => a == b
  | NaN, NaN => True
  | _, _ => False
  end.

End F.

(** ** The numpy functions the program calls *)

(** Remainder with the sign of the divisor, the value of Python's [%] and of
    [np.mod] on doubles: [a - b * floor (a / b)]. *)
Definition Qmod (a b : Q) : Q := a - b * inject_Z (Qfloor (a / b)).

(** [np.rint]: nearest integer, ties to the even one. *)
Definition rint (y : Q) : Z :=
  let f := Qfloor y in
  let d := y - inject_Z f in
  if Qle_bool d (1 # 2)
  then if Qeq_bool d (1 # 2) then (if Z.even f then f else f + 1)%Z else f
  else (f + 1)%Z.

(** Rounding to two decimals, exactly: [rint (100 y) / 100]. *)
Definition Qround2 (y : Q) : Q := inject_Z (rint (y * 100)) / 100.

Module np.

Definition mod_ (x y : float64) : float64 :=
  match x, y with
  | Fin a, Fin b => if Qeq_bool b 0 then NaN else Fin (Qmod a b)
  | _, _ => NaN
  end.

(** [np.maximum] and [np.minimum] propagate NaN. *)
Definition maximum (x y : float64) : float64 :=
  match x, y with
  | Fin a, Fin b => Fin (if Qle_bool a b then b else a)
  | _, _ => NaN
  end.

Definition minimum (x y : float64) : float64 :=
  match x, y with
  | Fin a, Fin b => Fin (if Qle_bool a b then a else b)
  | _, _ => NaN
  end.

(** [np.clip(x, lo, hi)] is [minimum (maximum x lo) hi]. *)
Definition clip (x lo hi : float64) : float64 :=
  minimum (maximum x lo) hi.

(** [x.round(2)] on a double. *)
Definition round2 (x : float64) : float64 := F.lift1 Qround2 x.

(** The order [np.sort] sorts doubles by: NaN goes last. *)
Definition sort_le (x y : float64) : bool :=
  match x, y with
  | _, NaN => true
  | NaN, Fin _ => false
  | Fin a, Fin b => Qle_bool a b
  end.

End np.

(** ** Arrays as lists *)

Section ListOps.
Context {A : Type}.

(** [a[i]] for an index [i >= 0]. *)
Definition getitem (a : list A) (i : nat) : result A :=
  match nth_error a i with
  | Some x => Ok x
  | None => Raise IndexError
  end.

(** Sorting by a total order given as a boolean test (insertion sort: for
    numbers the sorted array does not depend on the algorithm). *)
Variable le : A -> A -> bool.

Fixpoint insert (x : A) (l : list A) : list A :=
  match l with
  | [] => [x]
  | y :: t => if le x y then x :: l else y :: insert x t
  end.

Fixpoint isort (l : list A) : list A :=
  match l with
  | [] => []
  | x :: t => insert x (isort t)
  end.

(** [np.diff]: [out[i] = a[i+1] - a[i]]. *)
Variable sub : A -> A -> A.

Fixpoint diff (l : list A) : list A :=
  match l with
  | a :: (b :: _) as t => sub b a :: diff t
  | _ => []
  end.

(** [np.argmax], as numpy's loop runs it: the running maximum [mp] is
    replaced by [x] when [not (x <= mp)], and a NaN ends the scan. *)
Variable nan : A -> bool.

Fixpoint argmax_from (mp : A) (max_ind i : nat) (l : list A) : nat :=
  match l with
  | [] => max_ind
  | x :: t =>
      if negb (le x mp)
      then if nan x then i else argmax_from x i (S i) t
      else argmax_from mp max_ind (S i) t
  end.

Definition argmax (l : list A) : result nat :=
  match l with
  | [] => Raise ValueError_empty_argmax
  | x :: t => Ok (if nan x then O else argmax_from x O 1%nat t)
  end.

(** [a[i] = v] for an index in range (out of range the list is unchanged;
    the program only writes inside its 3x3 array). *)
Fixpoint set_nth (i : nat) (v : A) (l : list A) : list A :=
  match l, i with
  | [], _ => []
  | _ :: t, O => v :: t
  | x :: t, S i' => x :: set_nth i' v t
  end.

End ListOps.

Definition np_sort : list float64 -> list float64 := isort np.sort_le.
Definition np_diff : list float64 -> list float64 := diff F.sub.
Definition np_argmax : list float64 -> result nat := argmax F.leb F.is_nan.

(** Broadcasts of a binary operation with a scalar on the right. *)
Definition np_mod_scalar (a : list float64) (y : float64) : list float64 :=
  map (fun x => np.mod_ x y) a.
Definition np_add_scalar (a : list float64) (y : float64) : list float64 :=
  map (fun x => F.add x y) a.
Definition np_clip (a : list float64) (lo hi : float64) : list float64 :=
  map (fun x => np.clip x lo hi) a.

(** ** [_rotate_into_window] *)

Definition default_window_width : float64 := Fin 290.
Definition default_atol : float64 := Fin (1 # 1000000000).

(** [f"{span:.2f}"]: the span as the message shows it. *)
Definition format_2f (span : float64) : float64 := np.round2 span.

Definition _rotate_into_window (angles_deg : list float64)
    (window_width atol : float64)
  : result (list float64 * float64 * float64) :=
  let a := np_sort (np_mod_scalar angles_deg (Fin 360)) in
  let N := List.length a in
  a0 <- getitem a 0 ;;
  let diffs := np_diff (a ++ [F.add a0 (Fin 360)]) in
  k <- np_argmax diffs ;;
  max_gap <- getitem diffs k ;;
  let span := F.sub (Fin 360) max_gap in
  if F.leb span (F.add window_width atol) then
    start <- getitem a ((k + 1) mod N) ;;
    let c := F.neg start in
    let rotated := np_mod_scalar (np_add_scalar angles_deg c) (Fin 360) in
    let rotated := np_clip rotated (Fin 0) window_width in
    Ok (rotated, c, span)
  else
    Raise (ValueError_window window_width (format_2f span)).

(** ** [steering_phases] *)

(** [np.pi] is a double, hence a rational: 884279719003555 / 2^48. *)
Definition np_pi : Q := 884279719003555 # 281474976710656.

Definition np_deg2rad (x : float64) : float64 := F.mul x (Fin (np_pi / 180)).
Definition np_rad2deg (x : float64) : float64 := F.mul x (Fin (180 / np_pi)).

(** The diagnostics dictionary [{"rotation_deg": c, "span_deg": span}]. *)
Record info : Type := mk_info { rotation_deg : float64; span_deg : float64 }.

(** [enumerate([-1, 0, 1])]. *)
Definition enumerate_offsets : list (nat * Z) :=
  combine (seq 0 3) [(-1)%Z; 0%Z; 1%Z].

Definition matrix : Type := list (list float64).

(** [np.zeros((3, 3))] and [phases[j, i] = val]. *)
Definition np_zeros_3x3 : matrix := repeat (repeat (Fin 0) 3) 3.

Definition setitem2 (m : matrix) (j i : nat) (val : float64) : matrix :=
  set_nth j (set_nth i val (nth j m [])) m.

Definition cell (m : matrix) (j i : nat) : float64 := nth i (nth j m []) NaN.

(** ** Calibration files and the polynomial map *)

(** What [np.load] gives for a [.npz] file: the arrays stored under the
    keys the program reads, when present. *)
Record npz : Type := mk_npz {
  coefficients : option (list (list float64));
  ris_settings : option (list float64);
  target_azimuth : option float64;
  target_elevation : option float64
}.

(** [np.load(path)]; [None] when there is no such file. *)
Definition np_load (fs : string -> option npz) (path : string) : result npz :=
  match fs path with
  | Some d => Ok d
  | None => Raise FileNotFoundError
  end.

Definition key {A : Type} (field : option A) : result A :=
  match field with
  | Some v => Ok v
  | None => Raise KeyError
  end.

(** [coeffs[freq_idx]] for a Python int: a negative index counts from the
    end. *)
Definition getitem_int {A : Type} (a : list A) (i : Z) : result A :=
  let n := Z.of_nat (List.length a) in
  if (0 <=? i)%Z then getitem a (Z.to_nat i)
  else if (- n <=? i)%Z then getitem a (Z.to_nat (n + i))
  else Raise IndexError.

Definition volt_map (phase : float64) (coeffs : list float64) : float64 :=
  let num := List.length coeffs in
  fold_left
    (fun ret i => F.add ret (F.mul (nth i coeffs NaN) (F.pow phase (num - 1 - i))))
    (seq 0 num) (Fin 0).

(** Lines 152-153, for the row of coefficients selected by [freq_idx]:
    the voltage matrix and the voltage vector. *)
Definition voltage_outputs (row : list float64) (phases : matrix)
  : list float64 * matrix :=
  let voltages := map (map (fun p => volt_map p row)) phases in
  let voltage_vector := rev (List.concat (map (map np.round2) voltages)) in
  (voltage_vector, voltages).

Section Steering.

(** [np.sin] and [np.cos] on finite doubles: library functions, taken as
    given.  A finite argument has a finite sine and cosine; NaN gives
    NaN. *)
Variables sin cos : Q -> Q.

Definition np_sin : float64 -> float64 := F.lift1 sin.
Definition np_cos : float64 -> float64 := F.lift1 cos.

(** Lines 62-76: the spacings and the two progressive phase steps. *)
Definition spacing (d : option float64) : float64 :=
  match d with None => Fin (3 # 100) | Some v => v end.

Definition wavenumber : float64 :=
  let frequency := Fin 5000000000 in
  let wavelength := F.div (Fin 300000000) frequency in
  F.div (F.mul (Fin 2) (Fin np_pi)) wavelength.

Definition dphi_x (theta_deg phi_deg : float64) (dx : option float64) : float64 :=
  let k := wavenumber in
  let theta := np_deg2rad theta_deg in
  let phi := np_deg2rad phi_deg in
  F.mul (F.mul (F.mul (F.neg k) (spacing dx)) (np_sin theta)) (np_cos phi).

Definition dphi_y (theta_deg phi_deg : float64) (dy : option float64) : float64 :=
  let k := wavenumber in
  let theta := np_deg2rad theta_deg in
  let phi := np_deg2rad phi_deg in
  F.mul (F.mul (F.mul (F.neg k) (spacing dy)) (np_sin theta)) (np_sin phi).

(** Lines 79-88: the two nested loops.  Each round appends one phase to
    [base] and its cell [(j, i)] to [idx_map]; here the pairs are built
    together. *)
Definition base_loop (theta_deg phi_deg : float64) (dx dy : option float64)
  : list (float64 * (nat * nat)) :=
  let dpx := dphi_x theta_deg phi_deg dx in
  let dpy := dphi_y theta_deg phi_deg dy in
  flat_map (fun '(i, m) =>
    map (fun '(j, n) =>
      let phase := F.add (F.mul (Fin (inject_Z m)) dpx)
                         (F.mul (Fin (inject_Z n)) dpy) in
      let phase_deg := np.mod_ (np_rad2deg phase) (Fin 360) in
      (phase_deg, (j, i)))
      enumerate_offsets)
    enumerate_offsets.

Definition steering_phases (theta_deg phi_deg : float64)
    (dx dy : option float64) (max_phase : float64)
  : result (matrix * info) :=
  let loop := base_loop theta_deg phi_deg dx dy in
  let base := map fst loop in
  let idx_map := map snd loop in
  '(rotated, c_deg, span) <-
     _rotate_into_window base max_phase default_atol ;;
  let phases :=
    fold_left (fun ph '(val, (j, i)) => setitem2 ph j i val)
              (combine rotated idx_map) np_zeros_3x3 in
  Ok (phases, mk_info c_deg span).

(** ** [ris_voltage_vector] *)

Definition ris_voltage_vector (fs : string -> option npz)
    (theta_deg phi_deg : float64) (coeff_path : string) (freq_idx : Z)
    (max_phase : float64)
  : result (list float64 * matrix * matrix * info) :=
  coeff_data <- np_load fs coeff_path ;;
  coeffs <- key (coefficients coeff_data) ;;
  '(phases, inf) <- steering_phases theta_deg phi_deg None None max_phase ;;
  row <- getitem_int coeffs freq_idx ;;
  let '(voltage_vector, voltages) := voltage_outputs row phases in
  Ok (voltage_vector, phases, voltages, inf).

End Steering.

(** ** [load_data_from_directory] *)

(** The text [f"theta={el}, phi={az}"]: a fixed template around the two
    numbers, so a label is given by the numbers printed in it.  Two labels are
    the same text exactly when the printed numbers are the same. *)
Record label : Type := mk_label { label_theta : float64; label_phi : float64 }.

Definition same_b (x y : float64) : bool :=
  match x, y with
  | Fin a, Fin b => Qeq_bool a b
  | NaN, NaN => true
  | _, _ => false
  end.

Definition label_eqb (l1 l2 : label) : bool :=
  same_b (label_theta l1) (label_theta l2) && same_b (label_phi l1) (label_phi l2).

(** The tuple [(el, az, label, vector)]. *)
Record entry : Type := mk_entry {
  entry_el : float64;
  entry_az : float64;
  entry_label : label;
  entry_vector : list float64
}.

(** [bool(v == w)] and [bool(v < w)] for two distinct 1-D arrays.  The
    comparison is element-wise and gives an array; its truth value exists
    only when that array has exactly one element (numpy 2.2 and later: the
    truth value of an empty array, and the comparison of arrays that do not
    broadcast, raise as well). *)
Definition ndarray_truth (test : float64 -> float64 -> bool)
    (v w : list float64) : result bool :=
  match v, w with
  | [a], [b] => Ok (test a b)
  | _, _ => Raise ValueError_truth
  end.

(** [x < y] on two of the tuples, as Python compares tuples: the first pair
    of items that are not [==] decides by [<]; tuples equal on all four items
    are not [<].  Items three (the labels) are reached only when [el] and
    [az] are [==], and then they are the same text, so the scan goes on to
    the vectors. *)
Definition entry_lt (x y : entry) : result bool :=
  if negb (F.eqb (entry_el x) (entry_el y)) then
    Ok (F.ltb (entry_el x) (entry_el y))
  else if negb (F.eqb (entry_az x) (entry_az y)) then
    Ok (F.ltb (entry_az x) (entry_az y))
  else
    eq <- ndarray_truth F.eqb (entry_vector x) (entry_vector y) ;;
    if eq then Ok false
    else ndarray_truth F.ltb (entry_vector x) (entry_vector y).

(** [list.sort()]: stable, and it only ever asks [x < y].  Each element, from
    left to right, is put into the sorted prefix after the elements it is not
    smaller than (binary insertion in CPython; here the place is found by a
    linear scan).  A comparison that raises ends the sort. *)
Section PySort.
Context {A : Type}.
Variable lt : A -> A -> result bool.

Fixpoint sort_insert (pivot : A) (l : list A) : result (list A) :=
  match l with
  | [] => Ok [pivot]
  | y :: t =>
      b <- lt pivot y ;;
      if b then Ok (pivot :: l)
      else (r <- sort_insert pivot t ;; Ok (y :: r))
  end.

Definition list_sort (l : list A) : result (list A) :=
  fold_left (fun acc x => sorted <- acc ;; sort_insert x sorted) l (Ok []).
End PySort.

(** [str.endswith]. *)
Definition endswith (s suffix : string) : bool :=
  let n := String.length s in
  let m := String.length suffix in
  (m <=? n)%nat && String.eqb (substring (n - m) m s) suffix.

(** A record of the dictionary [label_to_data]. *)
Record catalog_data : Type := mk_data {
  data_vector : list float64;
  data_azimuth : float64;
  data_elevation : float64
}.

(** [d[k] = v] on a dictionary kept as the list of its items in insertion
    order: an existing key keeps its place and takes the new value. *)
Fixpoint dict_set (d : list (label * catalog_data)) (k : label) (v : catalog_data)
  : list (label * catalog_data) :=
  match d with
  | [] => [(k, v)]
  | (k', v') :: t =>
      if label_eqb k' k then (k', v) :: t else (k', v') :: dict_set t k v
  end.

(** A directory: the names [os.listdir] returns, in its order, each with
    what [np.load] reads from that file. *)
Definition directory : Type := list (string * npz).

(** The loop of lines 160-172. *)
Definition scan_entries (folder : directory) : list entry :=
  flat_map (fun '(file, data) =>
    if endswith file ".npz" then
      match ris_settings data, target_azimuth data, target_elevation data with
      | Some settings, Some az, Some el =>
          let lab := mk_label el az in
          let vector := map np.round2 settings in
          [mk_entry el az lab vector]
      | _, _, _ => []
      end
    else []) folder.

Definition load_data_from_directory (folder : directory)
  : result (list label * list (label * catalog_data)) :=
  let entries := scan_entries folder in
  entries <- list_sort entry_lt entries ;;
  let labels := map entry_label entries in
  let label_to_data :=
    fold_left (fun d e =>
      dict_set d (entry_label e)
        (mk_data (entry_vector e) (entry_az e) (entry_el e)))
      entries [] in
  Ok (labels, label_to_data).

(** * Notions used to state the properties *)

(** The program on finite numbers: the same list functions at type [Q]. *)
Definition sortQ : list Q -> list Q := isort Qle_bool.
Definition diffQ : list Q -> list Q := diff Qminus.
Definition argmaxQ : list Q -> result nat := argmax Qle_bool (fun _ => false).

Definition Qclip (x lo hi : Q) : Q :=
  let y := if Qle_bool x lo then lo else x in
  if Qle_bool y hi then y else hi.

(** The angles reduced mod 360 and sorted. *)
Definition sorted_angles (angles : list Q) : list Q :=
  sortQ (map (fun x => Qmod x 360) angles).

(** The circular gap after position [i] of a sorted list [a]: to the next
    angle, and from the last angle round to the first one plus 360. *)
Definition circular_gap (a : list Q) (i : nat) : Q :=
  if (S i <? List.length a)%nat
  then nth (S i) a 0 - nth i a 0
  else (nth 0 a 0 + 360) - nth i a 0.

(** [k] is the position of the widest circular gap, the first one among
    equals. *)
Definition first_widest_gap (a : list Q) (k : nat) : Prop :=
  (k < List.length a)%nat /\
  (forall i, (i < List.length a)%nat -> circular_gap a i <= circular_gap a k) /\
  (forall i, (i < k)%nat -> circular_gap a i < circular_gap a k).

(** The width of the smallest arc that holds all the angles: 360 minus the
    widest circular gap. *)
Definition minimal_span (angles : list Q) (span : Q) : Prop :=
  exists k, first_widest_gap (sorted_angles angles) k /\
            span = 360 - circular_gap (sorted_angles angles) k.

(** The smallest and the largest value of a list. *)
Definition is_min (l : list Q) (lo : Q) : Prop :=
  In lo l /\ forall r, In r l -> lo <= r.
Definition is_max (l : list Q) (hi : Q) : Prop :=
  In hi l /\ forall r, In r l -> r <= hi.

(** The 3x3 shape of the phase and voltage arrays. *)
Definition shape_3x3 (m : matrix) : Prop :=
  List.length m = 3%nat /\ Forall (fun row => List.length row = 3%nat) m.

(** The spacing as a number: 0.03 m when none is given. *)
Definition spacingQ (d : option Q) : Q :=
  match d with None => 3 # 100 | Some v => v end.

(** The first preprogrammed vector of [GUI_input.py], annotated there
    [# phi= 50, theta= 00]. *)
Definition preprogrammed_phi50_theta0 : list Q :=
  [78 # 10; 5; 0; 78 # 10; 5; 0; 78 # 10; 5; 0].

(** Entry by entry within [tol] of a reference vector. *)
Definition close_to (tol : Q) (vec : list float64) (ref : list Q) : Prop :=
  Forall2 (fun v r => exists q, v = Fin q /\ Qabs (q - r) <= tol) vec ref.

(** ** Inputs for running the model *)

(** Stand-ins for the library sine and cosine, to run examples: truncated
    series.  The examples below steer to elevation 0 or pass NaN, where only
    [sin 0 = 0] and the propagation of NaN matter. *)
Definition sin_series (x : Q) : Q := x - x ^ 3 / 6 + x ^ 5 / 120 - x ^ 7 / 5040.
Definition cos_series (x : Q) : Q := 1 - x ^ 2 / 2 + x ^ 4 / 24 - x ^ 6 / 720.

(** A file system with one coefficient table at the default path. *)
Definition one_table (coeffs : list (list float64)) (path : string) : option npz :=
  if String.eqb path "Utilities/coefficients.npz"
  then Some (mk_npz (Some coeffs) None None None)
  else None.

(** ** The steering formulas on finite inputs *)

(** The wavenumber [k = 2 pi / lambda], [lambda = c / f] with [c = 3e8] and
    [f = 5e9]. *)
Definition kQ : Q := 2 * np_pi / (300000000 / 5000000000).

Definition dphi_xQ (sin cos : Q -> Q) (theta phi : Q) (dx : option Q) : Q :=
  - kQ * spacingQ dx * sin (theta * (np_pi / 180)) * cos (phi * (np_pi / 180)).

Definition dphi_yQ (sin : Q -> Q) (theta phi : Q) (dy : option Q) : Q :=
  - kQ * spacingQ dy * sin (theta * (np_pi / 180)) * sin (phi * (np_pi / 180)).

(** The raw phase of the grid offset [(m, n)], in degrees within [[0, 360)]. *)
Definition raw_phaseQ (sin cos : Q -> Q) (theta phi : Q) (dx dy : option Q)
    (m n : Z) : Q :=
  Qmod ((inject_Z m * dphi_xQ sin cos theta phi dx
         + inject_Z n * dphi_yQ sin theta phi dy) * (180 / np_pi)) 360.


(** A snapshot directory with two qualifying records for the same pointing
    angle [(elevation, azimuth) = (45, 50)], and one with three records for
    different angles. *)
Definition settings_a : list float64 :=
  [Fin 8; Fin (1 # 10); Fin (43 # 10); Fin (11 # 10); Fin (46 # 10);
   Fin (57 # 10); Fin (47 # 10); Fin 6; Fin (79 # 10)].
Definition settings_b : list float64 :=
  [Fin (79 # 10); Fin 6; Fin (47 # 10); Fin (57 # 10); Fin (46 # 10);
   Fin (11 # 10); Fin (43 # 10); Fin (1 # 10); Fin 8].

Definition snapshot (settings : list float64) (az el : Q) : npz :=
  mk_npz None (Some settings) (Some (Fin az)) (Some (Fin el)).

Definition duplicate_directory : directory :=
  [("run1.npz"%string, snapshot settings_a 50 45);
   ("run2.npz"%string, snapshot settings_b 50 45)].

Definition distinct_directory : directory :=
  [("a.npz"%string, snapshot settings_a 50 45);
   ("notes.txt"%string, snapshot settings_a 0 0);
   ("b.npz"%string, snapshot settings_b 50 (-45));
   ("c.npz"%string, mk_npz None (Some settings_a) None (Some (Fin 0)));
   ("d.npz"%string, snapshot settings_b (-50) 45)].

(** ** The order of the catalog *)

(** The angles of a tuple as numbers, when both are finite. *)
Definition finite_angles (e : entry) : Prop :=
  F.is_nan (entry_el e) = false /\ F.is_nan (entry_az e) = false.

Definition value (x : float64) : Q :=
  match x with Fin q => q | NaN => 0 end.

(** Ascending by (elevation, azimuth). *)
Definition key_le (x y : entry) : Prop :=
  value (entry_el x) < value (entry_el y) \/
  (value (entry_el x) == value (entry_el y) /\
   value (entry_az x) <= value (entry_az y)).

Definition same_key (x y : entry) : Prop :=
  value (entry_el x) == value (entry_el y) /\
  value (entry_az x) == value (entry_az y).

(** Coarser stand-ins with results in lowest terms, for examples at an
    elevation other than 0. *)
Definition sin_coarse (x : Q) : Q := Qred (x - x ^ 3 / 6).
Definition cos_coarse (x : Q) : Q := Qred (1 - x ^ 2 / 2).

(** ** Polynomials on finite numbers *)

(** Horner's rule for coefficients given highest degree first (what
    [np.polyval] computes). *)
Definition horner (cs : list Q) (p : Q) : Q :=
  fold_left (fun acc c => acc * p + c) cs 0.

(** The sum that [volt_map] runs, on finite numbers. *)
Definition volt_mapQ (p : Q) (cs : list Q) : Q :=
  let num := List.length cs in
  fold_left (fun ret i => ret + nth i cs 0 * p ^ Z.of_nat (num - 1 - i))
            (seq 0 num) 0.

(** Strictly ascending by (elevation, azimuth). *)
Definition key_lt (x y : entry) : Prop :=
  value (entry_el x) < value (entry_el y) \/
  (value (entry_el x) == value (entry_el y) /\
   value (entry_az x) < value (entry_az y)).

(** A settings vector of more than one value (the snapshots hold nine). *)
Definition long_vector (e : entry) : Prop :=
  (1 < List.length (entry_vector e))%nat.

(** No two tuples at different positions of the list share their angles. *)
Definition distinct_angles (l : list entry) : Prop :=
  forall l1 x l2 y l3, l = l1 ++ x :: l2 ++ y :: l3 -> ~ same_key x y.

(** The item of [label_to_data] made from a tuple. *)
Definition record_of (e : entry) : label * catalog_data :=
  (entry_label e, mk_data (entry_vector e) (entry_az e) (entry_el e)).

(** A file the loader takes a record from: its name ends in [.npz] and it
    holds the three keys. *)
Definition qualifies (f : string * npz) : bool :=
  endswith (fst f) ".npz" &&
  match ris_settings (snd f), target_azimuth (snd f), target_elevation (snd f) with
  | Some _, Some _, Some _ => true
  | _, _, _ => false
  end.
(** The directory [distinct_directory] listed in another order, without the
    files that hold no record. *)
Definition relisted_directory : directory :=
  [("d.npz"%string, snapshot settings_b (-50) 45);
   ("a.npz"%string, snapshot settings_a 50 45);
   ("b.npz"%string, snapshot settings_b 50 (-45))].

(** ** The raw phases as a list *)

(** The grid offsets [(m, n)] in the order the two loops visit them, and the
    raw phases in that order (default spacings). *)
Definition grid_offsets : list (Z * Z) :=
  flat_map (fun m => map (fun n => (m, n)) [(-1)%Z; 0%Z; 1%Z]) [(-1)%Z; 0%Z; 1%Z].

Definition raw_phases (sin cos : Q -> Q) (theta phi : Q) : list Q :=
  map (fun '(m, n) => raw_phaseQ sin cos theta phi None None m n) grid_offsets.

(** * Properties *)

(** ** Remainders *)

Lemma Qmod_range a b : 0 < b -> 0 <= Qmod a b /\ Qmod a b < b.
Proof.
  intros Hb. unfold Qmod.
  pose proof (Qfloor_le (a / b)) as Hlo.
  pose proof (Qlt_floor (a / b)) as Hhi.
  rewrite inject_Z_plus in Hhi.
  assert (Ha : a == b * (a / b)) by (field; lra).
  set (f := inject_Z (Qfloor (a / b))) in *.
  split.
  - assert (b * f <= b * (a / b)) by (apply Qmult_le_l; auto). lra.
  - assert (b * (a / b) < b * (f + inject_Z 1)) by (apply Qmult_lt_l; auto).
    change (inject_Z 1) with 1 in *. lra.
Qed.

Lemma Qfloor_unique x z : inject_Z z <= x -> x < inject_Z z + 1 -> Qfloor x = z.
Proof.
  intros Hlo Hhi.
  pose proof (Qfloor_le x) as H1. pose proof (Qlt_floor x) as H2.
  rewrite inject_Z_plus in H2. change (inject_Z 1) with 1 in H2.
  assert (A : inject_Z (Qfloor x) < inject_Z z + 1) by lra.
  assert (B : inject_Z z < inject_Z (Qfloor x) + 1) by lra.
  change 1 with (inject_Z 1) in A, B. rewrite <- inject_Z_plus in A, B.
  rewrite <- Zlt_Qlt in A, B. lia.
Qed.

Lemma Qmod_unique a b r z :
  0 < b -> 0 <= r -> r < b -> a == r + b * inject_Z z -> Qmod a b == r.
Proof.
  intros Hb Hr0 Hr1 Ha. unfold Qmod.
  assert (Hf : Qfloor (a / b) = z).
  { apply Qfloor_unique.
    - apply Qle_shift_div_l; auto. lra.
    - apply Qlt_shift_div_r; auto. lra. }
  rewrite Hf. lra.
Qed.

Lemma Qmod_small a b : 0 <= a -> a < b -> Qmod a b == a.
Proof.
  intros H0 H1. apply (Qmod_unique a b a 0%Z); try lra.
  change (inject_Z 0) with 0. lra.
Qed.

(** Adding a constant to an angle or to its remainder gives the same
    remainder. *)
Lemma Qmod_shift q c b :
  0 < b -> Qmod (q + c) b == Qmod (Qmod q b + c) b.
Proof.
  intros Hb.
  destruct (Qmod_range (Qmod q b + c) b Hb) as [R0 R1].
  apply (Qmod_unique _ b _ (Qfloor ((Qmod q b + c) / b) + Qfloor (q / b))%Z); auto.
  rewrite inject_Z_plus. unfold Qmod. lra.
Qed.

(** ** Rounding to two decimals *)



(** ** Finite arrays: the program on doubles and on rationals agree *)

Lemma getitem_nth {A} (l : list A) i d :
  (i < List.length l)%nat -> getitem l i = Ok (nth i l d).
Proof.
  intros H. unfold getitem. rewrite (nth_error_nth' l d H). reflexivity.
Qed.

Lemma getitem_map_Fin l i :
  (i < List.length l)%nat -> getitem (map Fin l) i = Ok (Fin (nth i l 0)).
Proof.
  intros H. rewrite (getitem_nth _ _ (Fin 0)) by (rewrite length_map; exact H).
  now rewrite map_nth.
Qed.

Lemma insert_map_Fin x l :
  insert np.sort_le (Fin x) (map Fin l) = map Fin (insert Qle_bool x l).
Proof.
  induction l as [|y t IH]; simpl; [reflexivity|].
  destruct (Qle_bool x y); simpl; [reflexivity|]. now rewrite IH.
Qed.

Lemma np_sort_map_Fin l : np_sort (map Fin l) = map Fin (sortQ l).
Proof.
  unfold np_sort, sortQ. induction l as [|x t IH]; simpl; [reflexivity|].
  rewrite IH. apply insert_map_Fin.
Qed.

Lemma np_diff_map_Fin l : np_diff (map Fin l) = map Fin (diffQ l).
Proof.
  unfold np_diff, diffQ. induction l as [|x [|y t] IH]; simpl; try reflexivity.
  simpl in IH. now rewrite IH.
Qed.

Lemma argmax_from_map_Fin l mp mi i :
  argmax_from F.leb F.is_nan (Fin mp) mi i (map Fin l)
  = argmax_from Qle_bool (fun _ => false) mp mi i l.
Proof.
  revert mp mi i. induction l as [|x t IH]; intros; simpl; [reflexivity|].
  destruct (Qle_bool x mp); simpl; apply IH.
Qed.

Lemma np_argmax_map_Fin l : np_argmax (map Fin l) = argmaxQ l.
Proof.
  unfold np_argmax, argmaxQ. destruct l as [|x t]; simpl; [reflexivity|].
  now rewrite argmax_from_map_Fin.
Qed.

Lemma np_mod_scalar_Fin l :
  np_mod_scalar (map Fin l) (Fin 360) = map Fin (map (fun x => Qmod x 360) l).
Proof.
  unfold np_mod_scalar. rewrite !map_map. reflexivity.
Qed.

Lemma np_clip_Fin x lo hi :
  np.clip (Fin x) (Fin lo) (Fin hi) = Fin (Qclip x lo hi).
Proof.
  unfold np.clip, np.maximum, np.minimum, Qclip.
  destruct (Qle_bool x lo); reflexivity.
Qed.

(** ** Sorting *)

Lemma insert_perm {A} (le : A -> A -> bool) x l :
  Permutation (insert le x l) (x :: l).
Proof.
  induction l as [|y t IH]; simpl; [reflexivity|].
  destruct (le x y); [reflexivity|].
  rewrite IH. apply perm_swap.
Qed.

Lemma isort_perm {A} (le : A -> A -> bool) l : Permutation (isort le l) l.
Proof.
  induction l as [|x t IH]; simpl; [constructor|].
  rewrite insert_perm. now constructor.
Qed.

Lemma isort_length {A} (le : A -> A -> bool) l :
  List.length (isort le l) = List.length l.
Proof. apply Permutation_length, isort_perm. Qed.

Lemma insert_sorted x l :
  StronglySorted Qle l -> StronglySorted Qle (insert Qle_bool x l).
Proof.
  induction 1 as [|y t Hs IH Hall]; simpl.
  - repeat constructor.
  - destruct (Qle_bool x y) eqn:E.
    + apply Qle_bool_iff in E. constructor; [now constructor|].
      constructor; [exact E|].
      eapply Forall_impl; [|exact Hall]. intros z Hz. lra.
    + assert (y <= x).
      { destruct (Qlt_le_dec y x); [lra|].
        assert (Qle_bool x y = true) by now apply Qle_bool_iff. congruence. }
      constructor; [exact IH|].
      rewrite (Forall_forall). intros z Hz.
      apply (Permutation_in _ (insert_perm Qle_bool x t)) in Hz.
      destruct Hz as [<-|Hz]; [assumption|].
      rewrite Forall_forall in Hall. now apply Hall.
Qed.

Lemma sortQ_sorted l : StronglySorted Qle (sortQ l).
Proof.
  unfold sortQ. induction l as [|x t IH]; simpl; [constructor|].
  now apply insert_sorted.
Qed.

Lemma sorted_nth_le a i j :
  StronglySorted Qle a -> (i <= j)%nat -> (j < List.length a)%nat ->
  nth i a 0 <= nth j a 0.
Proof.
  intros Hs. revert i j. induction Hs as [|x t Hs IH Hall]; intros i j Hij Hj.
  - simpl in Hj. lia.
  - destruct j as [|j]; [assert (i = 0%nat) by lia; subst; simpl; lra|].
    destruct i as [|i].
    + simpl. rewrite Forall_forall in Hall. apply Hall, nth_In.
      simpl in Hj. lia.
    + simpl. apply IH; simpl in Hj; lia.
Qed.

(** ** Gaps *)

Lemma diffQ_length l : List.length (diffQ l) = (List.length l - 1)%nat.
Proof.
  unfold diffQ. induction l as [|x [|y t] IH]; simpl; try reflexivity.
  simpl in IH. rewrite IH. lia.
Qed.

Lemma diffQ_nth l i :
  (S i < List.length l)%nat -> nth i (diffQ l) 0 = nth (S i) l 0 - nth i l 0.
Proof.
  unfold diffQ. revert i. induction l as [|x [|y t] IH]; intros i Hi; simpl in Hi; try lia.
  destruct i as [|i]; [reflexivity|].
  change (nth i (diff Qminus (y :: t)) 0 = nth (S i) (y :: t) 0 - nth i (y :: t) 0).
  apply IH. simpl. lia.
Qed.

Lemma gaps_length a x : List.length (diffQ (a ++ [x])) = List.length a.
Proof. rewrite diffQ_length, length_app. simpl. lia. Qed.

Lemma gaps_nth a i :
  (i < List.length a)%nat ->
  nth i (diffQ (a ++ [nth 0 a 0 + 360])) 0 = circular_gap a i.
Proof.
  intros Hi. rewrite diffQ_nth by (rewrite length_app; simpl; lia).
  unfold circular_gap. rewrite (app_nth1 a _ 0 Hi).
  destruct (S i <? List.length a)%nat eqn:E.
  - apply Nat.ltb_lt in E. now rewrite (app_nth1 a _ 0 E).
  - apply Nat.ltb_ge in E. rewrite app_nth2 by lia.
    replace (S i - List.length a)%nat with 0%nat by lia. reflexivity.
Qed.

(** ** The first maximum *)

Lemma Qle_bool_false x y : Qle_bool x y = false -> y < x.
Proof.
  intros E. destruct (Qlt_le_dec y x) as [H|H]; [exact H|].
  apply Qle_bool_iff in H. congruence.
Qed.

Lemma argmax_from_spec l pre mp mi :
  (mi < List.length pre)%nat ->
  nth mi pre 0 = mp ->
  (forall j, (j < List.length pre)%nat -> nth j pre 0 <= mp) ->
  (forall j, (j < mi)%nat -> nth j pre 0 < mp) ->
  let k := argmax_from Qle_bool (fun _ => false) mp mi (List.length pre) l in
  (k < List.length (pre ++ l))%nat /\
  (forall j, (j < List.length (pre ++ l))%nat ->
             nth j (pre ++ l) 0 <= nth k (pre ++ l) 0) /\
  (forall j, (j < k)%nat -> nth j (pre ++ l) 0 < nth k (pre ++ l) 0).
Proof.
  revert pre mp mi. induction l as [|x t IH]; intros pre mp mi Hmi Hmp Hle Hlt; simpl.
  - rewrite app_nil_r. rewrite Hmp. auto.
  - assert (Hlen : List.length (pre ++ [x]) = S (List.length pre))
      by (rewrite length_app; simpl; lia).
    replace (pre ++ x :: t) with ((pre ++ [x]) ++ t) by (rewrite <- app_assoc; reflexivity).
    rewrite <- Hlen.
    destruct (Qle_bool x mp) eqn:E; simpl.
    + apply Qle_bool_iff in E. apply IH.
      * rewrite Hlen. lia.
      * rewrite app_nth1 by lia. exact Hmp.
      * intros j Hj. rewrite Hlen in Hj.
        destruct (Nat.eq_dec j (List.length pre)) as [->|Hne].
        -- rewrite app_nth2 by lia. rewrite Nat.sub_diag. exact E.
        -- rewrite app_nth1 by lia. apply Hle. lia.
      * intros j Hj. rewrite app_nth1 by lia. now apply Hlt.
    + apply Qle_bool_false in E. apply IH.
      * rewrite Hlen. lia.
      * rewrite app_nth2 by lia. now rewrite Nat.sub_diag.
      * intros j Hj. rewrite Hlen in Hj.
        destruct (Nat.eq_dec j (List.length pre)) as [->|Hne].
        -- rewrite app_nth2 by lia. rewrite Nat.sub_diag. simpl. lra.
        -- rewrite app_nth1 by lia. assert (nth j pre 0 <= mp) by (apply Hle; lia). lra.
      * intros j Hj. rewrite app_nth1 by lia.
        assert (nth j pre 0 <= mp) by (apply Hle; lia). lra.
Qed.

Lemma argmaxQ_spec l :
  l <> [] ->
  exists k, argmaxQ l = Ok k /\
    (k < List.length l)%nat /\
    (forall j, (j < List.length l)%nat -> nth j l 0 <= nth k l 0) /\
    (forall j, (j < k)%nat -> nth j l 0 < nth k l 0).
Proof.
  destruct l as [|x t]; [congruence|]. intros _.
  eexists. split; [reflexivity|].
  apply (argmax_from_spec t [x] x 0%nat); simpl; try lia; try reflexivity.
  intros j Hj. assert (j = 0%nat) by lia. subst. simpl. lra.
Qed.

(** ** [_rotate_into_window] on finite angles *)

Lemma sorted_angles_length angles :
  List.length (sorted_angles angles) = List.length angles.
Proof.
  unfold sorted_angles, sortQ. now rewrite isort_length, length_map.
Qed.

Lemma rotated_map_Fin angles c W :
  np_clip (np_mod_scalar (np_add_scalar (map Fin angles) (Fin c)) (Fin 360))
          (Fin 0) (Fin W)
  = map Fin (map (fun x => Qclip (Qmod (x + c) 360) 0 W) angles).
Proof.
  unfold np_clip, np_mod_scalar, np_add_scalar. rewrite !map_map.
  apply map_ext. intros x. simpl. apply np_clip_Fin.
Qed.

(** The run of the function on finite angles, in closed form: [k] is the
    first widest gap of the sorted angles, and the branch is decided by
    [span <= W + atol]. *)
Lemma rotate_finite angles W atol :
  angles <> [] ->
  exists k,
    first_widest_gap (sorted_angles angles) k /\
    let a := sorted_angles angles in
    let span := 360 - circular_gap a k in
    let start := nth ((k + 1) mod List.length a) a 0 in
    _rotate_into_window (map Fin angles) (Fin W) (Fin atol) =
      if Qle_bool span (W + atol)
      then Ok (map Fin (map (fun x => Qclip (Qmod (x + - start) 360) 0 W) angles),
               Fin (- start), Fin span)
      else Raise (ValueError_window (Fin W) (Fin (Qround2 span))).
Proof.
  intros Hne.
  assert (Hlen : (0 < List.length (sorted_angles angles))%nat).
  { rewrite sorted_angles_length. destruct angles; [congruence|simpl; lia]. }
  set (a := sorted_angles angles) in *.
  destruct (argmaxQ_spec (diffQ (a ++ [nth 0 a 0 + 360]))) as (k & Hk & Hlt & Hmax & Hfirst).
  { intro E. apply (f_equal (@List.length Q)) in E. rewrite gaps_length in E.
    simpl in E. lia. }
  rewrite gaps_length in Hlt, Hmax.
  exists k. split.
  - split; [exact Hlt|]. split.
    + intros i Hi. rewrite <- !gaps_nth by assumption. now apply Hmax.
    + intros i Hi. rewrite <- !gaps_nth by lia. now apply Hfirst.
  - cbv zeta. unfold _rotate_into_window.
    rewrite np_mod_scalar_Fin, np_sort_map_Fin. fold (sorted_angles angles). fold a.
    rewrite length_map.
    rewrite (getitem_map_Fin a 0 Hlen). cbn [bind].
    change (map Fin a ++ [F.add (Fin (nth 0 a 0)) (Fin 360)])
      with (map Fin a ++ map Fin [nth 0 a 0 + 360]).
    rewrite <- map_app, np_diff_map_Fin, np_argmax_map_Fin, Hk. cbn [bind].
    rewrite getitem_map_Fin by (rewrite gaps_length; exact Hlt). cbn [bind].
    rewrite (gaps_nth a k Hlt).
    change (F.leb (F.sub (Fin 360) (Fin (circular_gap a k))) (F.add (Fin W) (Fin atol)))
      with (Qle_bool (360 - circular_gap a k) (W + atol)).
    destruct (Qle_bool (360 - circular_gap a k) (W + atol)); [|reflexivity].
    rewrite getitem_map_Fin by (apply Nat.mod_upper_bound; lia). cbn [bind].
    change (F.neg (Fin ?x)) with (Fin (- x)).
    rewrite rotated_map_Fin. reflexivity.
Qed.

(** ** The arc left by the widest gap *)

Lemma sorted_angles_sorted angles : StronglySorted Qle (sorted_angles angles).
Proof. apply sortQ_sorted. Qed.

Lemma sorted_angles_In angles b :
  In b (sorted_angles angles) <-> exists q, In q angles /\ b = Qmod q 360.
Proof.
  unfold sorted_angles, sortQ. split.
  - intros H. apply (Permutation_in _ (isort_perm _ _)) in H.
    apply in_map_iff in H. destruct H as (q & <- & Hq). eauto.
  - intros (q & Hq & ->).
    apply (Permutation_in _ (Permutation_sym (isort_perm _ _))).
    now apply (in_map (fun x => Qmod x 360)).
Qed.

Lemma sorted_angles_range angles b :
  In b (sorted_angles angles) -> 0 <= b /\ b < 360.
Proof.
  intros H. apply sorted_angles_In in H. destruct H as (q & _ & ->).
  apply Qmod_range. reflexivity.
Qed.

(** The widest gap is not empty: the gap round the end of the list is
    positive already. *)
Lemma widest_gap_positive angles k :
  first_widest_gap (sorted_angles angles) k ->
  0 < circular_gap (sorted_angles angles) k.
Proof.
  set (a := sorted_angles angles). intros (Hk & Hmax & _).
  assert (Hl : (List.length a - 1 < List.length a)%nat) by lia.
  specialize (Hmax _ Hl).
  assert (0 < circular_gap a (List.length a - 1)); [|lra].
  unfold circular_gap.
  replace (S (List.length a - 1) <? List.length a)%nat with false
    by (symmetry; apply Nat.ltb_ge; lia).
  destruct (sorted_angles_range angles (nth 0 a 0)) as [? ?];
    [apply nth_In; fold a; lia|].
  destruct (sorted_angles_range angles (nth (List.length a - 1) a 0)) as [? ?];
    [apply nth_In; fold a; lia|].
  lra.
Qed.

Section Arc.
Variable angles : list Q.
Variable k : nat.
Hypothesis Hk : first_widest_gap (sorted_angles angles) k.

Let a := sorted_angles angles.
Let N := List.length a.
Let start := nth ((k + 1) mod N) a 0.
Let prev := nth k a 0.
Let span := 360 - circular_gap a k.

Lemma arc_prev_In : In prev a.
Proof. apply nth_In. apply Hk. Qed.

Lemma arc_start_In : In start a.
Proof.
  apply nth_In. apply Nat.mod_upper_bound.
  destruct Hk as [H _]. fold a N in H. lia.
Qed.

(** Either the gap lies inside the list, between [prev] and [start], or it
    is the gap round the end and the whole list lies between [start] and
    [prev]. *)
Lemma arc_cases :
  (prev < start /\ span == 360 - (start - prev) /\
   forall b, In b a -> b <= prev \/ start <= b)
  \/
  (span == prev - start /\ forall b, In b a -> start <= b /\ b <= prev).
Proof.
  pose proof (widest_gap_positive angles k Hk) as Hpos.
  pose proof (sorted_angles_sorted angles) as Hs.
  destruct Hk as (Hlt & _ & _). fold a in Hpos, Hs, Hlt. fold N in Hlt.
  unfold span, start, prev. unfold circular_gap in *. fold N in Hpos |- *.
  destruct (S k <? N)%nat eqn:E.
  - apply Nat.ltb_lt in E. left.
    replace ((k + 1) mod N)%nat with (S k) by (rewrite Nat.mod_small; lia).
    split; [lra|]. split; [lra|].
    intros b Hb. destruct (In_nth a b 0 Hb) as (j & Hj & <-).
    destruct (Nat.le_gt_cases j k) as [Hjk|Hjk].
    + left. apply sorted_nth_le; auto.
    + right. apply sorted_nth_le; auto.
  - apply Nat.ltb_ge in E. right.
    assert (Hk1 : (k + 1 = N)%nat) by lia.
    rewrite Hk1, Nat.Div0.mod_same.
    split; [lra|].
    intros b Hb. destruct (In_nth a b 0 Hb) as (j & Hj & <-).
    split; apply sorted_nth_le; auto; lia.
Qed.

Lemma arc_span_range : 0 <= span /\ span < 360.
Proof.
  pose proof (widest_gap_positive angles k Hk) as Hpos. fold a in Hpos.
  destruct (sorted_angles_range angles _ arc_prev_In) as [P0 P1].
  destruct (sorted_angles_range angles _ arc_start_In) as [S0 S1].
  fold a start prev in P0, P1, S0, S1.
  destruct arc_cases as [(H1 & H2 & _)|(H2 & H3)].
  - lra.
  - destruct (H3 _ arc_prev_In). unfold span in *. lra.
Qed.

(** Every reduced angle lands in [[0, span]] once [start] is taken off. *)
Lemma arc_rotated_range b :
  In b a -> 0 <= Qmod (b + - start) 360 /\ Qmod (b + - start) 360 <= span.
Proof.
  intros Hb.
  destruct (sorted_angles_range angles _ Hb) as [B0 B1].
  destruct (sorted_angles_range angles _ arc_prev_In) as [P0 P1].
  destruct (sorted_angles_range angles _ arc_start_In) as [S0 S1].
  fold a start prev in P0, P1, S0, S1.
  destruct arc_cases as [(H1 & H2 & H3)|(H2 & H3)].
  - destruct (H3 b Hb) as [Hle|Hge].
    + assert (E : Qmod (b + - start) 360 == b - start + 360).
      { apply (Qmod_unique _ 360 _ (-1)%Z); try lra.
        change (inject_Z (-1)) with (-1). lra. }
      rewrite E. lra.
    + assert (E : Qmod (b + - start) 360 == b - start).
      { apply Qmod_small; lra. }
      rewrite E. lra.
  - destruct (H3 b Hb) as [Hge Hle].
    assert (E : Qmod (b + - start) 360 == b - start).
    { apply Qmod_small; lra. }
    rewrite E. lra.
Qed.

Lemma arc_start_zero : Qmod (start + - start) 360 == 0.
Proof.
  apply (Qmod_unique _ 360 0 0%Z); try lra.
  change (inject_Z 0) with 0. lra.
Qed.

Lemma arc_prev_span : Qmod (prev + - start) 360 == span.
Proof.
  destruct (sorted_angles_range angles _ arc_prev_In) as [P0 P1].
  destruct (sorted_angles_range angles _ arc_start_In) as [S0 S1].
  fold a start prev in P0, P1, S0, S1.
  destruct arc_cases as [(H1 & H2 & H3)|(H2 & H3)].
  - rewrite H2. apply (Qmod_unique _ 360 _ (-1)%Z); try lra.
    change (inject_Z (-1)) with (-1). lra.
  - rewrite H2. destruct (H3 _ arc_prev_In). apply Qmod_small; lra.
Qed.

End Arc.

(** ** What a successful call returns *)

Lemma first_widest_gap_unique a k k' :
  first_widest_gap a k -> first_widest_gap a k' -> k = k'.
Proof.
  intros (Hk & Hmax & Hfirst) (Hk' & Hmax' & Hfirst').
  destruct (Nat.lt_trichotomy k k') as [H|[H|H]]; [|exact H|].
  - specialize (Hfirst' _ H). specialize (Hmax _ Hk'). lra.
  - specialize (Hfirst _ H). specialize (Hmax' _ Hk). lra.
Qed.


Lemma rotate_success angles W atol rotated c span :
  _rotate_into_window (map Fin angles) (Fin W) (Fin atol) = Ok (rotated, c, span) ->
  exists k,
    first_widest_gap (sorted_angles angles) k /\
    let a := sorted_angles angles in
    let s := 360 - circular_gap a k in
    let start := nth ((k + 1) mod List.length a) a 0 in
    s <= W + atol /\
    rotated = map Fin (map (fun x => Qclip (Qmod (x + - start) 360) 0 W) angles) /\
    c = Fin (- start) /\ span = Fin s.
Proof.
  intros H. destruct angles as [|q0 t]; [discriminate H|].
  destruct (rotate_finite (q0 :: t) W atol) as (k & Hk & E); [discriminate|].
  cbv zeta in E. rewrite E in H. clear E. exists k. split; [exact Hk|].
  cbv zeta.
  destruct (Qle_bool _ _) eqn:Hle; [|discriminate H].
  apply Qle_bool_iff in Hle. injection H as <- <- <-. auto.
Qed.

(** The angles after the rotation and before the clip: all within
    [[0, span]], one of them at 0 and one at [span]. *)
Lemma unclipped_values angles k :
  first_widest_gap (sorted_angles angles) k ->
  let a := sorted_angles angles in
  let s := 360 - circular_gap a k in
  let start := nth ((k + 1) mod List.length a) a 0 in
  (forall q, In q angles ->
     0 <= Qmod (q + - start) 360 /\ Qmod (q + - start) 360 <= s) /\
  (exists q, In q angles /\ Qmod (q + - start) 360 == 0) /\
  (exists q, In q angles /\ Qmod (q + - start) 360 == s).
Proof.
  intros Hk. cbv zeta.
  assert (H360 : 0 < 360) by reflexivity.
  split; [|split].
  - intros q Hq. rewrite (Qmod_shift q _ 360 H360).
    apply (arc_rotated_range angles k Hk).
    apply sorted_angles_In. eauto.
  - destruct (proj1 (sorted_angles_In angles _) (arc_start_In angles k Hk))
      as (q & Hq & E).
    exists q. split; [exact Hq|].
    rewrite (Qmod_shift q _ 360 H360), <- E.
    apply (arc_start_zero angles k).
  - destruct (proj1 (sorted_angles_In angles _) (arc_prev_In angles k Hk))
      as (q & Hq & E).
    exists q. split; [exact Hq|].
    rewrite (Qmod_shift q _ 360 H360), <- E.
    apply (arc_prev_span angles k Hk).
Qed.

(** ** Clipping *)

Lemma Qclip_cases x lo hi :
  lo <= hi ->
  (x <= lo /\ Qclip x lo hi = lo) \/
  (lo < x /\ x <= hi /\ Qclip x lo hi = x) \/
  (lo < x /\ hi < x /\ Qclip x lo hi = hi).
Proof.
  intros Hlh. unfold Qclip.
  destruct (Qle_bool x lo) eqn:E1.
  - apply Qle_bool_iff in E1. left. split; [exact E1|].
    assert (E : Qle_bool lo hi = true) by now apply Qle_bool_iff.
    now rewrite E.
  - apply Qle_bool_false in E1. right.
    destruct (Qle_bool x hi) eqn:E2.
    + apply Qle_bool_iff in E2. left. auto.
    + apply Qle_bool_false in E2. right. auto.
Qed.

Lemma Qclip_range x lo hi : lo <= hi -> lo <= Qclip x lo hi /\ Qclip x lo hi <= hi.
Proof.
  intros H. destruct (Qclip_cases x lo hi H) as [(?&->)|[(?&?&->)|(?&?&->)]]; lra.
Qed.

Lemma Qclip_mono x y lo hi :
  lo <= hi -> x <= y -> Qclip x lo hi <= Qclip y lo hi.
Proof.
  intros H Hxy.
  destruct (Qclip_cases x lo hi H) as [(?&->)|[(?&?&->)|(?&?&->)]];
  destruct (Qclip_cases y lo hi H) as [(?&->)|[(?&?&->)|(?&?&->)]]; lra.
Qed.

Lemma Qclip_zero x W : 0 <= W -> x == 0 -> Qclip x 0 W = 0.
Proof.
  intros HW Hx.
  destruct (Qclip_cases x 0 W HW) as [(?&->)|[(?&?&->)|(?&?&->)]];
    [reflexivity|lra|lra].
Qed.

(** ** Only finite arguments succeed *)

Lemma bind_Ok {A B} (r : result A) (k : A -> result B) y :
  bind r k = Ok y -> exists x, r = Ok x /\ k x = Ok y.
Proof. destruct r as [x|e]; simpl; [eauto|discriminate]. Qed.

Lemma finite_or_nan (l : list float64) :
  (exists qs, l = map Fin qs) \/ In NaN l.
Proof.
  induction l as [|[|q] t [(qs & ->)|H]].
  - left. now exists [].
  - right. now left.
  - right. now left.
  - left. now exists (q :: qs).
  - right. now right.
Qed.

(** [np.sort] puts the NaN after the numbers. *)
Lemma np_sort_shape l :
  exists qs n, np_sort l = map Fin qs ++ repeat NaN n /\ (In NaN l -> (0 < n)%nat).
Proof.
  unfold np_sort. induction l as [|x t (qs & n & E & Hn)].
  - exists [], 0%nat. split; [reflexivity|]. intros [].
  - simpl. rewrite E. destruct x as [|q].
    + exists qs, (S n). split; [|intros _; lia].
      clear. induction qs as [|y qs IH]; simpl.
      * destruct n; reflexivity.
      * now rewrite IH.
    + exists (insert Qle_bool q qs), n. split.
      * clear. induction qs as [|y qs IH]; simpl.
        -- destruct n; reflexivity.
        -- destruct (Qle_bool q y); simpl; [reflexivity|]. now rewrite IH.
      * intros [H|H]; [discriminate H|]. auto.
Qed.

Lemma np_diff_snoc l y x :
  np_diff (l ++ [y; x]) = np_diff (l ++ [y]) ++ [F.sub x y].
Proof.
  unfold np_diff. induction l as [|a [|b t] IH]; try reflexivity.
  change (diff F.sub ((a :: b :: t) ++ [y; x]))
    with (F.sub b a :: diff F.sub ((b :: t) ++ [y; x])).
  rewrite IH. reflexivity.
Qed.

Lemma argmax_from_nan l mp mi i :
  F.is_nan mp = false -> In NaN l ->
  exists k, argmax_from F.leb F.is_nan mp mi i l = k /\
            (i <= k)%nat /\ nth_error l (k - i) = Some NaN.
Proof.
  revert mp mi i. induction l as [|x t IH]; intros mp mi i Hmp Hin; [destruct Hin|].
  destruct x as [|q].
  - exists i. simpl. destruct mp; [discriminate|]. simpl.
    rewrite Nat.sub_diag. auto.
  - destruct Hin as [H|Hin]; [discriminate H|].
    destruct mp as [|b]; [discriminate Hmp|].
    simpl. destruct (Qle_bool q b); simpl.
    2:{ destruct (IH (Fin q) i (S i) eq_refl Hin) as (k & E & Hk & Hn).
      exists k. split; [exact E|]. split; [lia|].
      replace (k - i)%nat with (S (k - S i)) by lia. exact Hn. }
    destruct (IH (Fin b) mi (S i) eq_refl Hin) as (k & E & Hk & Hn).
    exists k. split; [exact E|]. split; [lia|].
    replace (k - i)%nat with (S (k - S i)) by lia. exact Hn.
Qed.

Lemma np_argmax_nan l :
  In NaN l -> exists k, np_argmax l = Ok k /\ getitem l k = Ok NaN.
Proof.
  unfold np_argmax, argmax, getitem. destruct l as [|x t]; [intros []|].
  intros Hin. destruct x as [|q].
  - exists 0%nat. auto.
  - destruct Hin as [H|Hin]; [discriminate H|].
    destruct (argmax_from_nan t (Fin q) 0 1 eq_refl Hin) as (k & E & Hk & Hn).
    exists k. simpl F.is_nan. cbv iota. rewrite E. split; [reflexivity|].
    replace k with (S (k - 1)) by lia. simpl. now rewrite Hn.
Qed.

(** A NaN among the angles makes the span NaN, and the call raises. *)
Lemma rotate_nan_raises angles W atol :
  In NaN angles ->
  _rotate_into_window angles W atol = Raise (ValueError_window W NaN).
Proof.
  intros Hin. unfold _rotate_into_window.
  assert (Hin' : In NaN (np_mod_scalar angles (Fin 360))).
  { unfold np_mod_scalar. apply in_map_iff. exists NaN. auto. }
  destruct (np_sort_shape (np_mod_scalar angles (Fin 360))) as (qs & n & E & Hn).
  specialize (Hn Hin'). rewrite E.
  destruct n as [|n]; [lia|].
  replace (repeat NaN (S n)) with (repeat NaN n ++ [NaN])
    by (change [NaN] with (repeat NaN 1); rewrite <- repeat_app; f_equal; lia).
  rewrite app_assoc. set (a' := map Fin qs ++ repeat NaN n).
  destruct (getitem (a' ++ [NaN]) 0) as [a0|e] eqn:E0.
  2:{ unfold getitem in E0. destruct a'; discriminate E0. }
  cbn [bind]. rewrite <- app_assoc. cbn [app]. rewrite np_diff_snoc.
  destruct (np_argmax_nan (np_diff (a' ++ [NaN]) ++ [F.sub (F.add a0 (Fin 360)) NaN]))
    as (k & Ek & Eg).
  { apply in_or_app. right. left. now destruct (F.add a0 (Fin 360)). }
  rewrite Ek. cbn [bind]. rewrite Eg. reflexivity.
Qed.

(** A successful call had finite angles, a finite window width and a finite
    tolerance: stating the properties of successful calls for finite
    arguments leaves no call out. *)
Lemma rotate_success_finite angles W atol r :
  _rotate_into_window angles W atol = Ok r ->
  exists qs w t, angles = map Fin qs /\ W = Fin w /\ atol = Fin t.
Proof.
  intros H.
  destruct (finite_or_nan angles) as [(qs & ->)|Hnan].
  2:{ rewrite (rotate_nan_raises _ _ _ Hnan) in H. discriminate H. }
  exists qs. unfold _rotate_into_window in H.
  apply bind_Ok in H. destruct H as (a0 & _ & H).
  apply bind_Ok in H. destruct H as (k & _ & H).
  apply bind_Ok in H. destruct H as (g & _ & H).
  destruct (F.leb (F.sub (Fin 360) g) (F.add W atol)) eqn:E; [|discriminate H].
  destruct W as [|w], atol as [|t]; try (destruct g; discriminate E).
  eauto.
Qed.

(** ** The window fitter: span, rotation, feasibility *)




(** Six angles whose minimal span is exactly the window width 290 are
    feasible (the gap round the end, 70, is the widest), and with the width 289
    the error shows the span 290.00. *)
Example span_equal_to_window_is_feasible :
  minimal_span [0; 58; 116; 174; 232; 290] 290 /\
  _rotate_into_window (map Fin [0; 58; 116; 174; 232; 290]) (Fin 290) default_atol
  = Ok (map Fin [0; 58; 116; 174; 232; 290], Fin 0, Fin 290) /\
  exists s, s == 290 /\
  _rotate_into_window (map Fin [0; 58; 116; 174; 232; 290]) (Fin 289) default_atol
  = Raise (ValueError_window (Fin 289) (Fin s)).
Proof.
  split; [|split].
  - exists 5%nat. split; [|reflexivity].
    split; [simpl; lia|]. split.
    + intros i Hi. simpl in Hi.
      do 6 (destruct i as [|i]; [vm_compute; discriminate|]). lia.
    + intros i Hi.
      do 5 (destruct i as [|i]; [vm_compute; reflexivity|]). lia.
  - vm_compute. reflexivity.
  - eexists. split; [|vm_compute; reflexivity]. reflexivity.
Qed.

(** ** The rotated angles *)

(** What a successful call returns when the window width is not negative:
    the clipped values, with the least one at 0 and the greatest one at the
    clipped span. *)
Lemma rotated_values angles W atol rotated c span :
  0 <= W ->
  _rotate_into_window (map Fin angles) (Fin W) (Fin atol) = Ok (rotated, c, span) ->
  exists rot s start hi,
    rotated = map Fin rot /\ span = Fin s /\ c = Fin (- start) /\
    In start (sorted_angles angles) /\
    s <= W + atol /\ 0 <= s /\
    (forall r, In r rot -> 0 <= r /\ r <= W) /\
    is_min rot 0 /\
    is_max rot hi /\ hi == Qclip s 0 W.
Proof.
  intros HW H.
  destruct (rotate_success _ _ _ _ _ _ H) as (k & Hk & Hs & -> & -> & ->).
  destruct (unclipped_values angles k Hk) as (Hall & (q0 & Hq0 & E0) & (q1 & Hq1 & E1)).
  cbv zeta in Hall, E0, E1.
  set (s := 360 - circular_gap (sorted_angles angles) k) in *.
  set (start := nth _ (sorted_angles angles) 0) in *.
  set (f := fun x => Qclip (Qmod (x + - start) 360) 0 W).
  exists (map f angles), s, start, (f q1).
  split; [reflexivity|]. split; [reflexivity|]. split; [reflexivity|].
  split; [apply (arc_start_In angles k Hk)|].
  split; [exact Hs|].
  split; [apply (arc_span_range angles k Hk)|].
  split; [|split; [|split]].
  - intros r Hr. apply in_map_iff in Hr. destruct Hr as (q & <- & _).
    apply Qclip_range; exact HW.
  - split.
    + rewrite <- (Qclip_zero _ W HW E0). apply (in_map f). exact Hq0.
    + intros r Hr. apply in_map_iff in Hr. destruct Hr as (q & <- & _).
      apply Qclip_range; exact HW.
  - split.
    + apply (in_map f). exact Hq1.
    + intros r Hr. apply in_map_iff in Hr. destruct Hr as (q & <- & Hq).
      apply Qclip_mono; [exact HW|].
      destruct (Hall q Hq). lra.
  - unfold f.
    destruct (Qclip_cases (Qmod (q1 + - start) 360) 0 W HW)
      as [(?&E)|[(?&?&E)|(?&?&E)]];
    destruct (Qclip_cases s 0 W HW) as [(?&E')|[(?&?&E')|(?&?&E')]];
    rewrite E, E'; lra.
Qed.




(** C10 (amended: for a window width that is not negative).  When
    [_rotate_into_window] succeeds on angles already in [[0, 360)] (the input
    is then not empty), the least returned angle is exactly 0 and the
    rotation [c] lies in [(-360, 0]]. *)
Theorem rotated_minimum_is_zero :
  forall (angles : list float64) (window_width atol : float64) rotated c span,
    (forall x, In x angles -> F.leb (Fin 0) x = true /\ F.ltb x (Fin 360) = true) ->
    F.leb (Fin 0) window_width = true ->
    _rotate_into_window angles window_width atol = Ok (rotated, c, span) ->
    angles <> [] /\
    exists rot cq,
      rotated = map Fin rot /\ c = Fin cq /\
      is_min rot 0 /\ -360 < cq /\ cq <= 0.
Proof.
  intros angles window_width atol rotated c span _ HW0 H. split.
  { intros ->. discriminate H. }
  destruct (rotate_success_finite _ _ _ _ H) as (qs & W & tol & -> & -> & ->).
  assert (HW : 0 <= W) by (apply Qle_bool_iff; exact HW0).
  destruct (rotated_values _ _ _ _ _ _ HW H)
    as (rot & s & start & hi & -> & -> & -> & Hst & _ & _ & _ & Hmin & _).
  exists rot, (- start). repeat (split; [assumption || reflexivity|]).
  destruct (sorted_angles_range _ _ Hst). lra.
Qed.

Lemma rotated_minimum_is_zero_witness :
  (forall x, In x (map Fin [10; 350; 200]) ->
     F.leb (Fin 0) x = true /\ F.ltb x (Fin 360) = true) /\
  F.leb (Fin 0) (Fin 290) = true /\
  exists rotated c span,
    _rotate_into_window (map Fin [10; 350; 200]) (Fin 290) (Fin (1 # 1000000000))
      = Ok (rotated, c, span) /\
    exists rot cq,
      rotated = map Fin rot /\ c = Fin cq /\
      is_min rot 0 /\ -360 < cq /\ cq <= 0.
Proof.
  assert (Hr : forall x, In x (map Fin [10; 350; 200]) ->
                 F.leb (Fin 0) x = true /\ F.ltb x (Fin 360) = true).
  { intros x [<-|[<-|[<-|[]]]]; split; reflexivity. }
  split; [exact Hr|]. split; [reflexivity|].
  do 3 eexists. split; [vm_compute; reflexivity|].
  eapply (rotated_minimum_is_zero (map Fin [10; 350; 200]) (Fin 290)
            (Fin (1 # 1000000000)));
    [exact Hr | reflexivity | vm_compute; reflexivity].
Defined.

(** C10, as stated, fails for a negative window width inside the tolerance:
    the call on the one angle 0 succeeds, and the only returned angle is the
    width, not 0. *)
Lemma negative_window_minimum_not_zero :
  (forall x, In x [Fin 0] -> F.leb (Fin 0) x = true /\ F.ltb x (Fin 360) = true) /\
  exists rotated c span,
    _rotate_into_window [Fin 0] (Fin (-1 # 2000000000)) default_atol
      = Ok (map Fin rotated, c, span) /\
    exists lo, is_min rotated lo /\ ~ lo == 0.
Proof.
  split.
  { intros x [<-|[]]. split; reflexivity. }
  exists [-1 # 2000000000]. do 2 eexists. split; [vm_compute; reflexivity|].
  exists (-1 # 2000000000). split.
  - split; [now left|]. intros r [<-|[]]. discriminate.
  - discriminate.
Qed.

(** ** The raw steering phases *)

Lemma dphi_x_Fin sin cos theta phi dx :
  dphi_x sin cos (Fin theta) (Fin phi) (option_map Fin dx)
  = Fin (dphi_xQ sin cos theta phi dx).
Proof. destruct dx; reflexivity. Qed.

Lemma dphi_y_Fin sin theta phi dy :
  dphi_y sin (Fin theta) (Fin phi) (option_map Fin dy)
  = Fin (dphi_yQ sin theta phi dy).
Proof. destruct dy; reflexivity. Qed.

Lemma base_loop_Fin sin cos theta phi dx dy :
  base_loop sin cos (Fin theta) (Fin phi) (option_map Fin dx) (option_map Fin dy)
  = flat_map (fun '(i, m) =>
      map (fun '(j, n) => (Fin (raw_phaseQ sin cos theta phi dx dy m n), (j, i)))
          enumerate_offsets)
      enumerate_offsets.
Proof.
  unfold base_loop. rewrite dphi_x_Fin, dphi_y_Fin. reflexivity.
Qed.



(** ** Elevation 0: no progressive phase *)

Lemma Qmod_zero x : x == 0 -> Qmod x 360 == 0.
Proof.
  intros H. apply (Qmod_unique x 360 0 0%Z); try lra; try reflexivity.
  change (inject_Z 0) with 0. lra.
Qed.

Lemma Qclip_at_zero x W :
  x == 0 -> Qclip x 0 W = if Qle_bool 0 W then 0 else W.
Proof.
  intros H. unfold Qclip.
  assert (E : Qle_bool x 0 = true) by (apply Qle_bool_iff; lra).
  now rewrite E.
Qed.

Lemma raw_phase_theta0 sin cos phi dx dy m n :
  (forall x, x == 0 -> sin x == 0) ->
  raw_phaseQ sin cos 0 phi dx dy m n == 0.
Proof.
  intros Hsin. unfold raw_phaseQ. apply Qmod_zero.
  unfold dphi_xQ, dphi_yQ.
  assert (HS : sin (0 * (np_pi / 180)) == 0) by (apply Hsin; ring).
  generalize (180 / np_pi) kQ. intros d k. rewrite HS. ring.
Qed.

(** Angles that are all 0 fit any window of width [>= -atol]: every angle is
    returned as 0 (as the width itself when the width is negative). *)
Lemma rotate_all_zero angles W atol :
  angles <> [] ->
  (forall q, In q angles -> q == 0) ->
  0 <= W + atol ->
  exists c span,
    _rotate_into_window (map Fin angles) (Fin W) (Fin atol)
    = Ok (map (fun _ => Fin (if Qle_bool 0 W then 0 else W)) angles, c, span).
Proof.
  intros Hne Hz HW.
  destruct (rotate_finite angles W atol Hne) as (k & Hk & E).
  cbv zeta in E. rewrite E. clear E.
  assert (Hin0 : forall b, In b (sorted_angles angles) -> b == 0).
  { intros b Hb. apply sorted_angles_In in Hb.
    destruct Hb as (q & Hq & ->). apply Qmod_zero. auto. }
  pose proof (Hin0 _ (arc_prev_In angles k Hk)) as Hprev.
  pose proof (Hin0 _ (arc_start_In angles k Hk)) as Hstart.
  pose proof (arc_prev_span angles k Hk) as Hspan.
  set (start := nth _ (sorted_angles angles) 0) in *.
  set (s := 360 - circular_gap (sorted_angles angles) k) in *.
  assert (Hs0 : s == 0).
  { rewrite <- Hspan. apply Qmod_zero. lra. }
  assert (Hle : Qle_bool s (W + atol) = true) by (apply Qle_bool_iff; lra).
  rewrite Hle. do 2 eexists. f_equal. f_equal. f_equal.
  rewrite map_map. apply map_ext_in. intros q Hq. f_equal.
  apply Qclip_at_zero. apply Qmod_zero. rewrite (Hz q Hq). lra.
Qed.

Lemma steering_theta0 sin cos phi W :
  (forall x, x == 0 -> sin x == 0) ->
  0 <= W ->
  exists inf,
    steering_phases sin cos (Fin 0) (Fin phi) None None (Fin W)
    = Ok (repeat (repeat (Fin 0) 3) 3, inf).
Proof.
  intros Hsin HW. unfold steering_phases.
  change (@None float64) with (option_map Fin None).
  rewrite (base_loop_Fin sin cos 0 phi None None).
  set (raw := raw_phaseQ sin cos 0 phi None None).
  set (zs := [raw (-1)%Z (-1)%Z; raw (-1)%Z 0%Z; raw (-1)%Z 1%Z;
              raw 0%Z (-1)%Z; raw 0%Z 0%Z; raw 0%Z 1%Z;
              raw 1%Z (-1)%Z; raw 1%Z 0%Z; raw 1%Z 1%Z]).
  change (map fst (flat_map _ enumerate_offsets)) with (map Fin zs).
  destruct (rotate_all_zero zs W (1 # 1000000000)) as (c & span & E).
  - discriminate.
  - intros q Hq. unfold zs in Hq. simpl in Hq.
    repeat (destruct Hq as [<-|Hq]; [apply raw_phase_theta0; exact Hsin|]).
    destruct Hq.
  - lra.
  - unfold default_atol. rewrite E. cbn [bind].
    assert (E0 : Qle_bool 0 W = true) by now apply Qle_bool_iff.
    rewrite E0. eexists. reflexivity.
Qed.

(** ** The 3x3 arrays *)

Lemma set_nth_length {A} i (v : A) l : List.length (set_nth i v l) = List.length l.
Proof.
  revert i. induction l as [|x t IH]; intros [|i]; simpl; auto.
Qed.

Lemma set_nth_Forall {A} (P : A -> Prop) i v l :
  Forall P l -> ((i < List.length l)%nat -> P v) -> Forall P (set_nth i v l).
Proof.
  revert i. induction l as [|x t IH]; intros [|i] Hl Hv; simpl; auto.
  - inversion Hl; subst. constructor; auto. apply Hv. simpl. lia.
  - inversion Hl; subst. constructor; auto. apply IH; auto.
    intros H. apply Hv. simpl. lia.
Qed.

Lemma setitem2_shape m j i val : shape_3x3 m -> shape_3x3 (setitem2 m j i val).
Proof.
  intros [Hl Hrows]. unfold setitem2. split.
  - now rewrite set_nth_length.
  - apply set_nth_Forall; [exact Hrows|].
    intros Hj. rewrite set_nth_length.
    rewrite Forall_forall in Hrows. apply Hrows. now apply nth_In.
Qed.

Lemma fold_setitem2_shape (l : list (float64 * (nat * nat))) m :
  shape_3x3 m ->
  shape_3x3 (fold_left (fun ph '(val, (j, i)) => setitem2 ph j i val) l m).
Proof.
  revert m. induction l as [|[val [j i]] t IH]; intros m Hm; simpl; [exact Hm|].
  apply IH. now apply setitem2_shape.
Qed.

Lemma steering_phases_shape sin cos theta phi dx dy W phases inf :
  steering_phases sin cos theta phi dx dy W = Ok (phases, inf) ->
  shape_3x3 phases.
Proof.
  unfold steering_phases.
  destruct (_rotate_into_window _ _ _) as [[[rotated c] span]|e]; [|discriminate].
  cbn [bind]. intros H. injection H as <- _.
  apply fold_setitem2_shape.
  split; [reflexivity|repeat constructor].
Qed.

Lemma shape_3x3_inv m :
  shape_3x3 m ->
  exists a b c d e f g h i, m = [[a; b; c]; [d; e; f]; [g; h; i]].
Proof.
  intros [Hl Hrows].
  destruct m as [|r0 [|r1 [|r2 [|]]]]; try discriminate Hl.
  inversion Hrows as [|? ? H0 Hr1]; subst.
  inversion Hr1 as [|? ? H1 Hr2]; subst.
  inversion Hr2 as [|? ? H2 _]; subst.
  destruct r0 as [|a [|b [|c [|]]]]; try discriminate H0.
  destruct r1 as [|d [|e [|f [|]]]]; try discriminate H1.
  destruct r2 as [|g [|h [|i [|]]]]; try discriminate H2.
  repeat eexists.
Qed.

(** ** [ris_voltage_vector]: what a successful call went through *)

Lemma ris_voltage_vector_outputs sin cos fs theta phi path idx W
      vec phases voltages inf :
  ris_voltage_vector sin cos fs theta phi path idx W
    = Ok (vec, phases, voltages, inf) ->
  exists data coeffs row,
    fs path = Some data /\ coefficients data = Some coeffs /\
    getitem_int coeffs idx = Ok row /\
    steering_phases sin cos theta phi None None W = Ok (phases, inf) /\
    voltage_outputs row phases = (vec, voltages).
Proof.
  unfold ris_voltage_vector, np_load, key.
  destruct (fs path) as [data|]; [|discriminate]. cbn [bind].
  destruct (coefficients data) as [coeffs|] eqn:Hc; [|discriminate]. cbn [bind].
  destruct (steering_phases _ _ _ _ _ _ _) as [[ph inf']|e] eqn:Hst; [|discriminate].
  cbn [bind].
  destruct (getitem_int coeffs idx) as [row|e] eqn:Hrow; [|discriminate]. cbn [bind].
  destruct (voltage_outputs row ph) as [v vs] eqn:E.
  intros H. injection H as <- <- <- <-.
  exists data, coeffs, row. auto.
Qed.

Lemma ris_voltage_vector_run sin cos fs theta phi path idx W
      data coeffs row phases inf :
  fs path = Some data -> coefficients data = Some coeffs ->
  getitem_int coeffs idx = Ok row ->
  steering_phases sin cos theta phi None None W = Ok (phases, inf) ->
  ris_voltage_vector sin cos fs theta phi path idx W
  = Ok (fst (voltage_outputs row phases), phases,
        snd (voltage_outputs row phases), inf).
Proof.
  intros Hfs Hc Hrow Hst. unfold ris_voltage_vector, np_load, key.
  rewrite Hfs. cbn [bind]. rewrite Hc. cbn [bind]. rewrite Hst. cbn [bind].
  rewrite Hrow. cbn [bind]. reflexivity.
Qed.

(** At elevation 0 the nine voltages are one and the same number. *)
Lemma ris_theta0 sin cos fs phi path idx W data coeffs row :
  (forall x, x == 0 -> sin x == 0) -> 0 <= W ->
  fs path = Some data -> coefficients data = Some coeffs ->
  getitem_int coeffs idx = Ok row ->
  exists inf,
    ris_voltage_vector sin cos fs (Fin 0) (Fin phi) path idx (Fin W)
    = Ok (repeat (np.round2 (volt_map (Fin 0) row)) 9,
          repeat (repeat (Fin 0) 3) 3,
          repeat (repeat (volt_map (Fin 0) row) 3) 3, inf).
Proof.
  intros Hsin HW Hfs Hc Hrow.
  destruct (steering_theta0 sin cos phi W Hsin HW) as (inf & Hst).
  exists inf.
  rewrite (ris_voltage_vector_run _ _ _ _ _ _ _ _ _ _ _ _ _ Hfs Hc Hrow Hst).
  reflexivity.
Qed.

Lemma constant_vector_not_reference v :
  ~ close_to (1 # 100) (repeat v 9) preprogrammed_phi50_theta0.
Proof.
  unfold close_to, preprogrammed_phi50_theta0. cbn [repeat]. intros H.
  inversion H as [|? ? ? ? (q & Hq & H1) H']; subst.
  inversion H' as [|? ? ? ? _ H'']; subst.
  inversion H'' as [|? ? ? ? (q' & Hq' & H3) _]; subst.
  injection Hq' as <-.
  apply Qabs_Qle_condition in H1. apply Qabs_Qle_condition in H3. lra.
Qed.

Lemma sin_series_zero x : x == 0 -> sin_series x == 0.
Proof. intros H. unfold sin_series. rewrite H. reflexivity. Qed.

(** C5 (amended).  At elevation [theta = 0] (any azimuth, [phi = 50]
    included), with the default spacing and frequency and whatever
    coefficient table is loaded, [ris_voltage_vector] returns nine equal
    entries: the selected polynomial at phase 0, rounded to two decimals.
    The phases are all 0 and the voltage matrix is constant.  Hence the
    reference vector [7.8, 5.0, 0.0, ...], whose entries differ, is not
    reproduced within 0.01 for any coefficients. *)
Theorem theta0_constant_vector :
  forall (sin cos : Q -> Q) (fs : string -> option npz) (phi W : Q)
         (path : string) (idx : Z) data coeffs row,
    (forall x, x == 0 -> sin x == 0) ->
    0 <= W ->
    fs path = Some data ->
    coefficients data = Some coeffs ->
    getitem_int coeffs idx = Ok row ->
    let v := volt_map (Fin 0) row in
    (exists inf,
       ris_voltage_vector sin cos fs (Fin 0) (Fin phi) path idx (Fin W)
       = Ok (repeat (np.round2 v) 9,
             repeat (repeat (Fin 0) 3) 3,
             repeat (repeat v 3) 3, inf)) /\
    ~ close_to (1 # 100) (repeat (np.round2 v) 9) preprogrammed_phi50_theta0.
Proof.
  intros sin cos fs phi W path idx data coeffs row Hsin HW Hfs Hc Hrow. cbv zeta.
  split.
  - apply (ris_theta0 sin cos fs phi path idx W data coeffs row); assumption.
  - apply constant_vector_not_reference.
Qed.

Lemma theta0_constant_vector_witness :
  (forall x, x == 0 -> sin_series x == 0) /\ 0 <= 290 /\
  (exists inf,
     ris_voltage_vector sin_series cos_series
       (one_table [[Fin 2; Fin 1; Fin (1 # 2)]])
       (Fin 0) (Fin 50) "Utilities/coefficients.npz" 0 (Fin 290)
     = Ok (repeat (np.round2 (volt_map (Fin 0) [Fin 2; Fin 1; Fin (1 # 2)])) 9,
           repeat (repeat (Fin 0) 3) 3,
           repeat (repeat (volt_map (Fin 0) [Fin 2; Fin 1; Fin (1 # 2)]) 3) 3,
           inf)).
Proof.
  split; [exact sin_series_zero|]. split; [discriminate|].
  exact (proj1 (theta0_constant_vector sin_series cos_series
                  (one_table [[Fin 2; Fin 1; Fin (1 # 2)]]) 50 290
                  "Utilities/coefficients.npz" 0
                  (mk_npz (Some [[Fin 2; Fin 1; Fin (1 # 2)]]) None None None)
                  [[Fin 2; Fin 1; Fin (1 # 2)]] [Fin 2; Fin 1; Fin (1 # 2)]
                  sin_series_zero ltac:(discriminate)
                  eq_refl eq_refl eq_refl)).
Defined.

(** C5, as stated, fails: for elevation 0 and azimuth 50, no sine with
    [sin 0 = 0] and no coefficient table make the returned vector match the
    reference vector within 0.01. *)
Lemma theta0_phi50_not_reference :
  ~ exists (sin cos : Q -> Q) (fs : string -> option npz) vec phases voltages inf,
      (forall x, x == 0 -> sin x == 0) /\
      ris_voltage_vector sin cos fs (Fin 0) (Fin 50)
        "Utilities/coefficients.npz" 0 default_window_width
      = Ok (vec, phases, voltages, inf) /\
      close_to (1 # 100) vec preprogrammed_phi50_theta0.
Proof.
  intros (sin & cos & fs & vec & phases & voltages & inf & Hsin & Hrun & Hclose).
  destruct (ris_voltage_vector_outputs _ _ _ _ _ _ _ _ _ _ _ _ Hrun)
    as (data & coeffs & row & Hfs & Hc & Hrow & _ & _).
  destruct (ris_theta0 sin cos fs 50 "Utilities/coefficients.npz" 0 290
              data coeffs row Hsin ltac:(discriminate) Hfs Hc Hrow) as (inf' & E).
  unfold default_window_width in Hrun. rewrite E in Hrun.
  injection Hrun as <- _ _ _.
  exact (constant_vector_not_reference _ Hclose).
Qed.

(** ** The voltage matrix and the voltage vector *)

Lemma voltage_outputs_cells row phases :
  shape_3x3 phases ->
  let voltages := snd (voltage_outputs row phases) in
  let vec := fst (voltage_outputs row phases) in
  shape_3x3 voltages /\
  List.length vec = 9%nat /\
  vec = rev (List.concat (map (map np.round2) voltages)) /\
  forall r c, (r < 3)%nat -> (c < 3)%nat ->
    cell voltages r c = volt_map (cell phases r c) row /\
    nth (8 - (3 * r + c)) vec NaN = np.round2 (cell voltages r c).
Proof.
  intros Hs. destruct (shape_3x3_inv _ Hs) as (a & b & c & d & e & f & g & h & i & ->).
  cbv zeta. unfold voltage_outputs. cbn [fst snd].
  split; [split; [reflexivity|repeat constructor]|].
  split; [reflexivity|]. split; [reflexivity|].
  intros r c' Hr Hc.
  destruct r as [|[|[|r]]]; [| | |lia];
    (destruct c' as [|[|[|c']]]; [| | |lia]); split; reflexivity.
Qed.

(** C6 (amended).  The 3x3 voltage matrix that [ris_voltage_vector] returns
    is the element-wise image of the phase matrix under the polynomial of the
    selected coefficient row, not rounded; the rounding to two decimals is
    applied to the entries of the returned voltage vector only. *)
Theorem voltage_matrix_is_unrounded_image :
  forall (sin cos : Q -> Q) (fs : string -> option npz) theta phi path idx W
         vec phases voltages inf,
    ris_voltage_vector sin cos fs theta phi path idx W
      = Ok (vec, phases, voltages, inf) ->
    exists data coeffs row,
      fs path = Some data /\ coefficients data = Some coeffs /\
      getitem_int coeffs idx = Ok row /\
      shape_3x3 phases /\ shape_3x3 voltages /\
      voltages = map (map (fun p => volt_map p row)) phases /\
      forall r c, (r < 3)%nat -> (c < 3)%nat ->
        cell voltages r c = volt_map (cell phases r c) row /\
        nth (8 - (3 * r + c)) vec NaN = np.round2 (cell voltages r c).
Proof.
  intros sin cos fs theta phi path idx W vec phases voltages inf Hrun.
  destruct (ris_voltage_vector_outputs _ _ _ _ _ _ _ _ _ _ _ _ Hrun)
    as (data & coeffs & row & Hfs & Hc & Hrow & Hst & Hout).
  exists data, coeffs, row.
  pose proof (steering_phases_shape _ _ _ _ _ _ _ _ _ Hst) as Hs.
  destruct (voltage_outputs_cells row phases Hs) as (Hv & _ & _ & Hcells).
  rewrite Hout in Hv, Hcells. cbn [fst snd] in Hv, Hcells.
  repeat (split; [assumption|]).
  split; [|exact Hcells].
  unfold voltage_outputs in Hout. now injection Hout as _ <-.
Qed.

Lemma voltage_matrix_is_unrounded_image_witness :
  exists vec phases voltages inf,
    ris_voltage_vector sin_series cos_series (one_table [[Fin (1 # 1000)]])
      (Fin 0) (Fin 50) "Utilities/coefficients.npz" 0 (Fin 290)
      = Ok (vec, phases, voltages, inf) /\
    cell voltages 1 2 = volt_map (cell phases 1 2) [Fin (1 # 1000)] /\
    nth 3 vec NaN = np.round2 (cell voltages 1 2).
Proof.
  destruct (ris_theta0 sin_series cos_series (one_table [[Fin (1 # 1000)]]) 50
              "Utilities/coefficients.npz" 0 290 _ _ _
              sin_series_zero ltac:(discriminate) eq_refl eq_refl eq_refl)
    as (inf & E).
  do 4 eexists. split; [exact E|].
  destruct (voltage_matrix_is_unrounded_image _ _ _ _ _ _ _ _ _ _ _ _ E)
    as (data & coeffs & row & Hfs & Hc & Hrow & _ & _ & _ & Hcells).
  injection Hfs as <-. injection Hc as <-. injection Hrow as <-.
  exact (Hcells 1%nat 2%nat ltac:(lia) ltac:(lia)).
Defined.

(** C6, as stated, fails: with the one coefficient 0.001 (a constant
    polynomial) and elevation 0, the returned voltage matrix holds 0.001 in
    every cell, which is not a number rounded to two decimals; the returned
    vector holds 0.00. *)
Lemma voltage_matrix_not_rounded :
  exists vec phases voltages inf,
    ris_voltage_vector sin_series cos_series (one_table [[Fin (1 # 1000)]])
      (Fin 0) (Fin 50) "Utilities/coefficients.npz" 0 default_window_width
      = Ok (vec, phases, voltages, inf) /\
    cell voltages 0 0 = Fin (0 + (1 # 1000) * 1) /\
    ~ F.same (np.round2 (cell voltages 0 0)) (cell voltages 0 0) /\
    F.same (nth 8 vec NaN) (Fin 0).
Proof.
  destruct (ris_theta0 sin_series cos_series (one_table [[Fin (1 # 1000)]]) 50
              "Utilities/coefficients.npz" 0 290 _ _ _
              sin_series_zero ltac:(discriminate) eq_refl eq_refl eq_refl)
    as (inf & E).
  do 4 eexists. split; [exact E|].
  split; [reflexivity|]. split; [|reflexivity].
  vm_compute. discriminate.
Qed.

(** ** Identity coefficients *)

Lemma same_refl x : F.same x x.
Proof. destruct x; simpl; [exact I|reflexivity]. Qed.


Lemma rint_comp x y : x == y -> rint x = rint y.
Proof.
  intros H. unfold rint. rewrite (Qfloor_comp _ _ H).
  assert (Hd : x - inject_Z (Qfloor y) == y - inject_Z (Qfloor y)) by (rewrite H; reflexivity).
  rewrite (Qleb_comp _ _ Hd (1 # 2) (1 # 2) (Qeq_refl _)).
  rewrite (Qeqb_comp _ _ Hd (1 # 2) (1 # 2) (Qeq_refl _)).
  reflexivity.
Qed.

Lemma round2_same x y : F.same x y -> F.same (np.round2 x) (np.round2 y).
Proof.
  destruct x as [|a], y as [|b]; simpl; try tauto.
  intros H. unfold Qround2.
  assert (E : a * 100 == b * 100) by (rewrite H; reflexivity).
  now rewrite (rint_comp _ _ E).
Qed.




(** ** NaN angles *)

Lemma mul_nan_r x : F.mul x NaN = NaN.
Proof. now destruct x. Qed.

Lemma dphi_nan sin cos theta phi d :
  theta = NaN \/ phi = NaN ->
  dphi_x sin cos theta phi d = NaN /\ dphi_y sin theta phi d = NaN.
Proof.
  intros [-> | ->]; unfold dphi_x, dphi_y; cbn [np_deg2rad np_sin np_cos F.mul F.lift2 F.lift1].
  - destruct phi; rewrite !mul_nan_r; split; reflexivity.
  - now rewrite !mul_nan_r.
Qed.

Lemma base_loop_nan sin cos theta phi dx dy :
  theta = NaN \/ phi = NaN ->
  map fst (base_loop sin cos theta phi dx dy) = repeat NaN 9.
Proof.
  intros H. unfold base_loop.
  destruct (dphi_nan sin cos theta phi dx H) as [-> _].
  destruct (dphi_nan sin cos theta phi dy H) as [_ ->].
  reflexivity.
Qed.

(** C8 (amended).  A NaN elevation or azimuth raises no error while the nine
    raw phases are computed: all of them are NaN.  The window fit that
    [steering_phases] then runs raises its [ValueError]: the span is NaN, and
    [span <= window_width + atol] is false for a NaN.  So [steering_phases]
    raises, and no NaN phase matrix is returned. *)
Theorem nan_angle_raises :
  forall (sin cos : Q -> Q) (theta phi : float64) (dx dy : option float64)
         (max_phase : float64),
    theta = NaN \/ phi = NaN ->
    map fst (base_loop sin cos theta phi dx dy) = repeat NaN 9 /\
    steering_phases sin cos theta phi dx dy max_phase
    = Raise (ValueError_window max_phase NaN).
Proof.
  intros sin cos theta phi dx dy W H.
  pose proof (base_loop_nan sin cos theta phi dx dy H) as E.
  split; [exact E|].
  unfold steering_phases. rewrite E. reflexivity.
Qed.

Lemma nan_angle_raises_witness :
  (NaN = NaN \/ Fin 50 = NaN) /\
  steering_phases sin_series cos_series NaN (Fin 50) None None default_window_width
  = Raise (ValueError_window default_window_width NaN).
Proof.
  split; [left; reflexivity|].
  exact (proj2 (nan_angle_raises sin_series cos_series NaN (Fin 50) None None
                  default_window_width (or_introl eq_refl))).
Defined.

(** C8, as stated, fails: a NaN elevation makes [steering_phases] raise, and
    so does a NaN azimuth. *)
Lemma nan_elevation_raises :
  steering_phases sin_series cos_series NaN (Fin 0) None None default_window_width
  = Raise (ValueError_window (Fin 290) NaN) /\
  steering_phases sin_series cos_series (Fin 0) NaN None None default_window_width
  = Raise (ValueError_window (Fin 290) NaN).
Proof. split; vm_compute; reflexivity. Qed.

(** ** The calibration catalog *)

(** Two tuples for the same angles: the comparison falls through to the
    vectors and raises, unless both vectors have exactly one element. *)
Lemma entry_lt_same_angles x y :
  F.eqb (entry_el x) (entry_el y) = true ->
  F.eqb (entry_az x) (entry_az y) = true ->
  (1 < List.length (entry_vector x))%nat ->
  entry_lt x y = Raise ValueError_truth.
Proof.
  intros He Ha Hl. unfold entry_lt. rewrite He, Ha. simpl.
  destruct (entry_vector x) as [|a [|b t]]; simpl in Hl; try lia.
  reflexivity.
Qed.

(** Any directory made of two qualifying records with the same finite
    angles and settings vectors of nine values makes the loader raise. *)
Lemma two_records_same_angles_raise f1 f2 s1 s2 az el :
  endswith f1 ".npz" = true -> endswith f2 ".npz" = true ->
  List.length s1 = 9%nat -> List.length s2 = 9%nat ->
  load_data_from_directory [(f1, snapshot s1 az el); (f2, snapshot s2 az el)]
  = Raise ValueError_truth.
Proof.
  intros H1 H2 L1 L2. unfold load_data_from_directory, scan_entries.
  cbn [flat_map snapshot ris_settings target_azimuth target_elevation app].
  rewrite H1, H2. cbn [app list_sort fold_left bind sort_insert].
  rewrite entry_lt_same_angles; [reflexivity| | |].
  - cbn [entry_el F.eqb]. apply Qeq_bool_refl.
  - cbn [entry_az F.eqb]. apply Qeq_bool_refl.
  - cbn [entry_vector]. rewrite length_map. lia.
Qed.

(** ** Sorting the tuples *)

Lemma key_le_refl x : key_le x x.
Proof. right. split; [reflexivity|apply Qle_refl]. Qed.

Lemma key_le_trans x y z : key_le x y -> key_le y z -> key_le x z.
Proof. unfold key_le. intros [H1|[H1 H1']] [H2|[H2 H2']]; [left|left|left|right]; lra. Qed.

Lemma key_le_antisym x y : key_le x y -> key_le y x -> same_key x y.
Proof. unfold key_le, same_key. intros [H1|[H1 H1']] [H2|[H2 H2']]; lra. Qed.

Lemma same_key_le x y : same_key x y -> key_le x y /\ key_le y x.
Proof. unfold key_le, same_key. intros [H1 H2]. split; right; lra. Qed.

(** What one comparison of two tuples with finite angles can do. *)
Lemma entry_lt_cases x y :
  finite_angles x -> finite_angles y ->
  match entry_lt x y with
  | Ok true => key_le x y
  | Ok false => key_le y x
  | Raise e => e = ValueError_truth /\ same_key x y
  end.
Proof.
  intros [Hx1 Hx2] [Hy1 Hy2]. unfold entry_lt, key_le, same_key.
  destruct (entry_el x) as [|a]; [discriminate|].
  destruct (entry_az x) as [|b]; [discriminate|].
  destruct (entry_el y) as [|c]; [discriminate|].
  destruct (entry_az y) as [|d]; [discriminate|].
  cbn [F.eqb F.ltb value].
  destruct (Qeq_bool a c) eqn:E1; cbn [negb].
  2:{ apply Qeq_bool_neq in E1.
      destruct (Qle_bool c a) eqn:E2; cbn [negb].
      - apply Qle_bool_iff in E2. left. lra.
      - apply Qle_bool_false in E2. left. exact E2. }
  apply Qeq_bool_iff in E1.
  destruct (Qeq_bool b d) eqn:E3; cbn [negb].
  2:{ apply Qeq_bool_neq in E3.
      destruct (Qle_bool d b) eqn:E4; cbn [negb].
      - apply Qle_bool_iff in E4. right. split; lra.
      - apply Qle_bool_false in E4. right. split; lra. }
  apply Qeq_bool_iff in E3.
  unfold ndarray_truth.
  destruct (entry_vector x) as [|u [|u' tu]]; cbn [bind]; try (split; [reflexivity|split; assumption]).
  destruct (entry_vector y) as [|v [|v' tv]]; cbn [bind]; try (split; [reflexivity|split; assumption]).
  destruct (F.eqb u v); [right; split; lra|].
  destruct (F.ltb u v); right; split; lra.
Qed.

Lemma entry_lt_same_key_raise x y :
  same_key x y -> finite_angles x -> finite_angles y ->
  (1 < List.length (entry_vector x))%nat ->
  entry_lt x y = Raise ValueError_truth.
Proof.
  intros [H1 H2] [Hx1 Hx2] [Hy1 Hy2] Hl. apply entry_lt_same_angles; [| |exact Hl].
  - destruct (entry_el x), (entry_el y); try discriminate.
    now apply Qeq_bool_iff.
  - destruct (entry_az x), (entry_az y); try discriminate.
    now apply Qeq_bool_iff.
Qed.

(** Insertion keeps the list sorted and loses nothing. *)
Lemma sort_insert_sorted pivot l r :
  finite_angles pivot -> Forall finite_angles l ->
  StronglySorted key_le l ->
  sort_insert entry_lt pivot l = Ok r ->
  StronglySorted key_le r /\ Permutation r (l ++ [pivot]).
Proof.
  intros Hp. revert r. induction l as [|y t IH]; intros r Hfin Hs H; simpl in H.
  - injection H as <-. split; [repeat constructor|reflexivity].
  - inversion Hfin as [|? ? Hy Ht]; subst.
    inversion Hs as [|? ? Hst Hall]; subst.
    pose proof (entry_lt_cases pivot y Hp Hy) as Hc.
    destruct (entry_lt pivot y) as [[|]|e]; cbn [bind] in H; [| |discriminate H].
    + injection H as <-. split.
      * constructor; [exact Hs|]. constructor; [exact Hc|].
        eapply Forall_impl; [|exact Hall]. intros z Hz.
        eapply key_le_trans; eassumption.
      * change (pivot :: y :: t) with ([pivot] ++ (y :: t)).
        apply Permutation_app_comm.
    + destruct (sort_insert entry_lt pivot t) as [r'|e] eqn:E; [|discriminate H].
      cbn [bind] in H. injection H as <-.
      destruct (IH r' Ht Hst eq_refl) as [Hs' Hp'].
      split.
      * constructor; [exact Hs'|].
        rewrite Forall_forall. intros z Hz.
        apply (Permutation_in _ Hp') in Hz. apply in_app_or in Hz.
        destruct Hz as [Hz|[<-|[]]]; [|exact Hc].
        rewrite Forall_forall in Hall. now apply Hall.
      * simpl. now constructor.
Qed.

Lemma list_sort_from acc l r :
  Forall finite_angles acc -> Forall finite_angles l ->
  StronglySorted key_le acc ->
  fold_left (fun a x => sorted <- a ;; sort_insert entry_lt x sorted) l (Ok acc) = Ok r ->
  StronglySorted key_le r /\ Permutation r (acc ++ l).
Proof.
  revert acc. induction l as [|x t IH]; intros acc Ha Hl Hs H; simpl in H.
  - injection H as <-. rewrite app_nil_r. auto.
  - inversion Hl as [|? ? Hx Ht]; subst.
    destruct (sort_insert entry_lt x acc) as [acc'|e] eqn:E.
    2:{ exfalso. clear -H. induction t as [|y t IH]; simpl in H; [discriminate H|auto]. }
    destruct (sort_insert_sorted x acc acc' Hx Ha Hs E) as [Hs' Hp'].
    assert (Ha' : Forall finite_angles acc').
    { rewrite Forall_forall. intros z Hz.
      apply (Permutation_in _ Hp') in Hz. apply in_app_or in Hz.
      destruct Hz as [Hz|[<-|[]]]; [|exact Hx].
      rewrite Forall_forall in Ha. now apply Ha. }
    destruct (IH acc' Ha' Ht Hs' H) as [Hs'' Hp''].
    split; [exact Hs''|].
    rewrite Hp''. rewrite Hp'. rewrite <- app_assoc. reflexivity.
Qed.

(** When the loader returns, the labels are those of all the qualifying
    records, in ascending order of (elevation, azimuth). *)
Lemma catalog_sorted folder labels data :
  Forall finite_angles (scan_entries folder) ->
  load_data_from_directory folder = Ok (labels, data) ->
  exists entries,
    labels = map entry_label entries /\
    Permutation entries (scan_entries folder) /\
    StronglySorted key_le entries.
Proof.
  intros Hfin H. unfold load_data_from_directory in H.
  apply bind_Ok in H. destruct H as (entries & Hsort & H).
  injection H as <- _. exists entries. split; [reflexivity|].
  unfold list_sort in Hsort.
  destruct (list_sort_from [] _ _ (Forall_nil _) Hfin (SSorted_nil _) Hsort) as [Hs Hp].
  auto.
Qed.

(** ** Two records for the same angles *)

Lemma entry_lt_raise x y e : entry_lt x y = Raise e -> e = ValueError_truth.
Proof.
  unfold entry_lt, ndarray_truth.
  destruct (F.eqb (entry_el x) (entry_el y)); cbn [negb]; [|discriminate].
  destruct (F.eqb (entry_az x) (entry_az y)); cbn [negb]; [|discriminate].
  destruct (entry_vector x) as [|u [|u' tu]]; cbn [bind];
    try (intros H; injection H as <-; reflexivity).
  destruct (entry_vector y) as [|v [|v' tv]]; cbn [bind];
    try (intros H; injection H as <-; reflexivity).
  destruct (F.eqb u v); discriminate.
Qed.

Lemma sort_insert_raise pivot l e :
  sort_insert entry_lt pivot l = Raise e -> e = ValueError_truth.
Proof.
  induction l as [|y t IH]; simpl; [discriminate|].
  destruct (entry_lt pivot y) as [[|]|e'] eqn:E; cbn [bind].
  - discriminate.
  - destruct (sort_insert entry_lt pivot t) as [r|e'']; cbn [bind]; [discriminate|].
    intros H. injection H as <-. now apply IH.
  - intros H. injection H as <-. now apply entry_lt_raise in E.
Qed.

Lemma fold_sort_raise l e :
  fold_left (fun a x => sorted <- a ;; sort_insert entry_lt x sorted) l (Raise e)
  = Raise e.
Proof. induction l as [|x t IH]; simpl; auto. Qed.

Lemma fold_sort_raise_truth l acc e :
  fold_left (fun a x => sorted <- a ;; sort_insert entry_lt x sorted) l (Ok acc)
  = Raise e -> e = ValueError_truth.
Proof.
  revert acc. induction l as [|x t IH]; intros acc; simpl; [discriminate|].
  destruct (sort_insert entry_lt x acc) as [acc'|e'] eqn:E.
  - apply IH.
  - rewrite fold_sort_raise. intros H. injection H as <-.
    now apply sort_insert_raise in E.
Qed.

(** Putting a tuple into a sorted list that already holds one with the same
    angles compares the two, and that comparison raises. *)
Lemma sort_insert_duplicate acc x y :
  StronglySorted key_le acc -> Forall finite_angles acc -> finite_angles y ->
  In x acc -> same_key x y ->
  (1 < List.length (entry_vector y))%nat ->
  sort_insert entry_lt y acc = Raise ValueError_truth.
Proof.
  intros Hs Hfin Hy Hin Hk Hl. induction acc as [|z t IH]; [destruct Hin|].
  inversion Hs as [|? ? Hst Hall]; subst.
  inversion Hfin as [|? ? Hz Ht]; subst.
  assert (Hzx : key_le z x).
  { destruct Hin as [->|Hin]; [apply key_le_refl|].
    rewrite Forall_forall in Hall. now apply Hall. }
  assert (Hdup : same_key y z -> entry_lt y z = Raise ValueError_truth).
  { intros H. now apply entry_lt_same_key_raise. }
  destruct (same_key_le _ _ Hk) as [Hxy Hyx].
  simpl. pose proof (entry_lt_cases y z Hy Hz) as Hc.
  destruct (entry_lt y z) as [[|]|e] eqn:E; cbn [bind].
  - exfalso.
    assert (same_key y z).
    { apply key_le_antisym; [exact Hc|]. eapply key_le_trans; eassumption. }
    discriminate (Hdup H).
  - destruct Hin as [->|Hin].
    + exfalso. destruct Hk as [K1 K2].
      assert (same_key y x) by (split; lra).
      discriminate (Hdup H).
    + rewrite (IH Hst Ht Hin). reflexivity.
  - destruct Hc as [-> _]. reflexivity.
Qed.

(** Whatever else the directory holds: two qualifying records sharing their
    (finite) angles, the later one with a settings vector of more than one
    value, make the loader raise. *)
Lemma duplicate_records_raise folder l1 x l2 y l3 :
  scan_entries folder = l1 ++ x :: l2 ++ y :: l3 ->
  Forall finite_angles (scan_entries folder) ->
  same_key x y ->
  (1 < List.length (entry_vector y))%nat ->
  load_data_from_directory folder = Raise ValueError_truth.
Proof.
  intros Hscan Hfin Hk Hl. unfold load_data_from_directory, list_sort.
  rewrite Hscan in *.
  replace (l1 ++ x :: l2 ++ y :: l3) with ((l1 ++ x :: l2) ++ y :: l3) in *
    by (rewrite <- app_assoc; reflexivity).
  apply Forall_app in Hfin. destruct Hfin as [Hfin1 Hfin2].
  inversion Hfin2 as [|? ? Hy _]; subst.
  rewrite fold_left_app.
  destruct (fold_left _ (l1 ++ x :: l2) (Ok [])) as [acc|e] eqn:E.
  - destruct (list_sort_from [] _ _ (Forall_nil _) Hfin1 (SSorted_nil _) E) as [Hs Hp].
    simpl in Hp.
    assert (Hin : In x acc).
    { apply (Permutation_in _ (Permutation_sym Hp)). apply in_or_app. right. now left. }
    assert (Hacc : Forall finite_angles acc).
    { rewrite Forall_forall. intros z Hz. apply (Permutation_in _ Hp) in Hz.
      rewrite Forall_forall in Hfin1. now apply Hfin1. }
    cbn [fold_left bind].
    rewrite (sort_insert_duplicate acc x y Hs Hacc Hy Hin Hk Hl).
    rewrite fold_sort_raise. reflexivity.
  - apply fold_sort_raise_truth in E. subst e.
    rewrite fold_sort_raise. reflexivity.
Qed.

(** C9 (the code at the failing input).  On a directory with two qualifying
    records for the same (elevation, azimuth), [load_data_from_directory]
    returns no catalog: [entries.sort()] compares the two tuples, which are
    equal on elevation, azimuth and label, so the comparison reaches the two
    numpy vectors and raises [ValueError] ([duplicate_records_raise] shows
    it for any directory with such a pair).  On a directory without such a
    pair the catalog comes back sorted by (elevation, azimuth)
    ([catalog_sorted]). *)
Theorem duplicate_angles_raise :
  load_data_from_directory duplicate_directory = Raise ValueError_truth /\
  exists data,
    load_data_from_directory distinct_directory
    = Ok ([mk_label (Fin (-45)) (Fin 50); mk_label (Fin 45) (Fin (-50));
           mk_label (Fin 45) (Fin 50)], data).
Proof.
  split; [reflexivity|]. eexists. vm_compute. reflexivity.
Qed.


(** * Further properties of the window fitter *)

(** ** The span is the least width that holds the angles *)











(** ** Every outcome of a call *)

(** Finite angles with any window width and tolerance, NaN included. *)
Lemma rotate_finite_any angles (W atol : float64) :
  angles <> [] ->
  exists k,
    first_widest_gap (sorted_angles angles) k /\
    let a := sorted_angles angles in
    let span := 360 - circular_gap a k in
    let start := nth ((k + 1) mod List.length a) a 0 in
    _rotate_into_window (map Fin angles) W atol =
      if F.leb (Fin span) (F.add W atol)
      then Ok (np_clip (map Fin (map (fun x => Qmod (x + - start) 360) angles))
                       (Fin 0) W,
               Fin (- start), Fin span)
      else Raise (ValueError_window W (Fin (Qround2 span))).
Proof.
  intros Hne.
  destruct (rotate_finite angles 0 0 Hne) as (k & Hk & _).
  exists k. split; [exact Hk|].
  assert (Hlen : (0 < List.length (sorted_angles angles))%nat).
  { rewrite sorted_angles_length. destruct angles; [congruence|simpl; lia]. }
  set (a := sorted_angles angles) in *.
  destruct (argmaxQ_spec (diffQ (a ++ [nth 0 a 0 + 360]))) as (k' & Hk' & Hlt & Hmax & Hfirst).
  { intro E. apply (f_equal (@List.length Q)) in E. rewrite gaps_length in E.
    simpl in E. lia. }
  rewrite gaps_length in Hlt, Hmax.
  assert (k' = k).
  { apply (first_widest_gap_unique a); [|exact Hk].
    split; [exact Hlt|]. split.
    - intros i Hi. rewrite <- !gaps_nth by assumption. now apply Hmax.
    - intros i Hi. rewrite <- !gaps_nth by lia. now apply Hfirst. }
  subst k'.
  cbv zeta. unfold _rotate_into_window.
  rewrite np_mod_scalar_Fin, np_sort_map_Fin. fold (sorted_angles angles). fold a.
  rewrite length_map.
  rewrite (getitem_map_Fin a 0 Hlen). cbn [bind].
  change (map Fin a ++ [F.add (Fin (nth 0 a 0)) (Fin 360)])
    with (map Fin a ++ map Fin [nth 0 a 0 + 360]).
  rewrite <- map_app, np_diff_map_Fin, np_argmax_map_Fin, Hk'. cbn [bind].
  rewrite getitem_map_Fin by (rewrite gaps_length; exact Hlt). cbn [bind].
  rewrite (gaps_nth a k Hlt).
  change (F.sub (Fin 360) (Fin (circular_gap a k)))
    with (Fin (360 - circular_gap a k)).
  destruct (F.leb (Fin (360 - circular_gap a k)) (F.add W atol)); [|reflexivity].
  rewrite getitem_map_Fin by (apply Nat.mod_upper_bound; lia). cbn [bind].
  change (F.neg (Fin ?x)) with (Fin (- x)).
  f_equal. f_equal. f_equal. f_equal.
  unfold np_mod_scalar, np_add_scalar. rewrite !map_map. reflexivity.
Qed.


(** ** Angles that coincide, and what the rotation keeps *)







(** * Further properties of [steering_phases] *)

Lemma base_loop_length sin cos theta phi dx dy :
  List.length (map fst (base_loop sin cos theta phi dx dy)) = 9%nat.
Proof. reflexivity. Qed.

Lemma rotate_length angles W atol rotated c span :
  _rotate_into_window angles W atol = Ok (rotated, c, span) ->
  List.length rotated = List.length angles.
Proof.
  intros H.
  destruct (rotate_success_finite _ _ _ _ H) as (qs & w & t & -> & -> & ->).
  destruct (rotate_success _ _ _ _ _ _ H) as (k & _ & _ & -> & _).
  now rewrite !length_map.
Qed.

(** The cell (row [j], column [i]) of the returned matrix is the entry
    [3 i + j] of the rotated array. *)
Lemma steering_cells sin cos theta phi dx dy W phases inf :
  steering_phases sin cos theta phi dx dy W = Ok (phases, inf) ->
  exists rotated c span,
    _rotate_into_window (map fst (base_loop sin cos theta phi dx dy)) W default_atol
      = Ok (rotated, c, span) /\
    inf = mk_info c span /\
    forall i j, (i < 3)%nat -> (j < 3)%nat ->
      cell phases j i = nth (3 * i + j) rotated NaN.
Proof.
  unfold steering_phases.
  destruct (_rotate_into_window _ _ _) as [[[rotated c] span]|e] eqn:E; [|discriminate].
  cbn [bind]. intros H. injection H as <- <-.
  exists rotated, c, span. split; [reflexivity|]. split; [reflexivity|].
  pose proof (rotate_length _ _ _ _ _ _ E) as Hlen.
  rewrite base_loop_length in Hlen.
  destruct rotated as [|r0 [|r1 [|r2 [|r3 [|r4 [|r5 [|r6 [|r7 [|r8 [|]]]]]]]]]];
    try discriminate Hlen.
  intros i j Hi Hj.
  destruct i as [|[|[|i]]]; [| | |lia];
    (destruct j as [|[|[|j]]]; [| | |lia]); reflexivity.
Qed.

(** X7.  What [steering_phases] returns when it returns, for a [max_phase]
    that is not negative: a 3x3 matrix of finite phases, each within
    [[0, max_phase]]; a rotation in [(-360, 0]]; and a span in [[0, 360)],
    at most [max_phase + 1e-9]. *)
Theorem steering_phases_range :
  forall (sin cos : Q -> Q) (theta phi : float64) (dx dy : option float64)
         (max_phase : float64) phases inf,
    F.leb (Fin 0) max_phase = true ->
    steering_phases sin cos theta phi dx dy max_phase = Ok (phases, inf) ->
    exists W cq s,
      max_phase = Fin W /\ inf = mk_info (Fin cq) (Fin s) /\
      shape_3x3 phases /\
      (forall i j, (i < 3)%nat -> (j < 3)%nat ->
         exists v, cell phases j i = Fin v /\ 0 <= v /\ v <= W) /\
      -360 < cq /\ cq <= 0 /\
      0 <= s /\ s < 360 /\ s <= W + (1 # 1000000000).
Proof.
  intros sin cos theta phi dx dy max_phase phases inf HW0 H.
  pose proof (steering_phases_shape _ _ _ _ _ _ _ _ _ H) as Hshape.
  destruct (steering_cells _ _ _ _ _ _ _ _ _ H) as (rotated & c & span & Hrot & -> & Hcells).
  pose proof (rotate_length _ _ _ _ _ _ Hrot) as Hlen.
  rewrite base_loop_length in Hlen.
  destruct (rotate_success_finite _ _ _ _ Hrot) as (qs & W & tol & Hqs & -> & Htol).
  unfold default_atol in Htol. injection Htol as <-.
  rewrite Hqs in Hrot. unfold default_atol in Hrot.
  assert (HW : 0 <= W) by (apply Qle_bool_iff; exact HW0).
  destruct (rotated_values _ _ _ _ _ _ HW Hrot)
    as (rot & s & start & hi & -> & -> & -> & Hst & Hs & Hs0 & Hin & _ & _ & _).
  destruct (rotate_success _ _ _ _ _ _ Hrot) as (k & Hk & _ & _ & Ec & Es).
  exists W, (- start), s.
  split; [reflexivity|]. split; [reflexivity|]. split; [exact Hshape|].
  split.
  - intros i j Hi Hj. rewrite (Hcells i j Hi Hj).
    rewrite length_map in Hlen.
    exists (nth (3 * i + j) rot 0). split.
    + rewrite (nth_indep (map Fin rot) NaN (Fin 0)) by (rewrite length_map; lia).
      apply map_nth.
    + apply Hin. apply nth_In. lia.
  - destruct (sorted_angles_range _ _ Hst).
    injection Es as Es.
    destruct (arc_span_range qs k Hk) as [S0 S1]. rewrite <- Es in S0, S1.
    repeat split; lra.
Qed.

Lemma steering_phases_range_witness :
  F.leb (Fin 0) (Fin 290) = true /\
  exists phases inf,
    steering_phases sin_coarse cos_coarse (Fin 30) (Fin 50) None None (Fin 290)
      = Ok (phases, inf) /\
    exists W cq s,
      Fin 290 = Fin W /\ inf = mk_info (Fin cq) (Fin s) /\
      shape_3x3 phases /\
      (forall i j, (i < 3)%nat -> (j < 3)%nat ->
         exists v, cell phases j i = Fin v /\ 0 <= v /\ v <= W) /\
      -360 < cq /\ cq <= 0 /\
      0 <= s /\ s < 360 /\ s <= W + (1 # 1000000000).
Proof.
  split; [reflexivity|].
  assert (E : exists r, steering_phases sin_coarse cos_coarse (Fin 30) (Fin 50)
                          None None (Fin 290) = Ok r)
    by (eexists; vm_compute; reflexivity).
  destruct E as [[phases inf] E].
  exists phases, inf. split; [exact E|].
  exact (steering_phases_range sin_coarse cos_coarse (Fin 30) (Fin 50) None None
           (Fin 290) phases inf eq_refl E).
Defined.



(** * Further properties of the polynomial map *)

Lemma pow_Fin p n : F.pow (Fin p) n = Fin (p ^ Z.of_nat n).
Proof. destruct n; reflexivity. Qed.

Lemma volt_fold_Fin p cs num l acc :
  (forall i, In i l -> (i < List.length cs)%nat) ->
  fold_left
    (fun ret i => F.add ret (F.mul (nth i (map Fin cs) NaN) (F.pow (Fin p) (num - 1 - i))))
    l (Fin acc)
  = Fin (fold_left (fun ret i => ret + nth i cs 0 * p ^ Z.of_nat (num - 1 - i)) l acc).
Proof.
  revert acc. induction l as [|i t IH]; intros acc Hl; simpl; [reflexivity|].
  rewrite (nth_indep (map Fin cs) NaN (Fin 0))
    by (rewrite length_map; apply Hl; now left).
  rewrite map_nth, pow_Fin. cbn [F.mul F.add F.lift2].
  apply IH. intros j Hj. apply Hl. now right.
Qed.

Lemma volt_map_Fin p cs : volt_map (Fin p) (map Fin cs) = Fin (volt_mapQ p cs).
Proof.
  unfold volt_map, volt_mapQ. rewrite length_map.
  apply volt_fold_Fin. intros i Hi. apply in_seq in Hi. lia.
Qed.

Lemma fold_sum_scaled (g h : nat -> Q) (p : Q) l a b :
  (forall i, In i l -> g i == h i * p) -> a == b * p ->
  fold_left (fun r i => r + g i) l a == fold_left (fun r i => r + h i) l b * p.
Proof.
  revert a b. induction l as [|i t IH]; intros a b Hg Hab; simpl; [exact Hab|].
  apply IH.
  - intros j Hj. apply Hg. now right.
  - rewrite Hab, (Hg i (or_introl eq_refl)). ring.
Qed.

Lemma volt_mapQ_snoc p cs c : volt_mapQ p (cs ++ [c]) == volt_mapQ p cs * p + c.
Proof.
  unfold volt_mapQ. rewrite length_app. simpl List.length.
  replace (List.length cs + 1)%nat with (S (List.length cs)) by lia.
  rewrite seq_S, fold_left_app. simpl.
  rewrite app_nth2 by lia.
  replace (List.length cs - List.length cs)%nat with 0%nat by lia.
  replace (List.length cs - 0 - List.length cs)%nat with 0%nat by lia.
  simpl nth. change (p ^ Z.of_nat 0) with 1.
  assert (E : fold_left
                (fun ret i => ret + nth i (cs ++ [c]) 0
                                   * p ^ Z.of_nat (List.length cs - 0 - i))
                (seq 0 (List.length cs)) 0
              == fold_left
                   (fun ret i => ret + nth i cs 0
                                      * p ^ Z.of_nat (List.length cs - 1 - i))
                   (seq 0 (List.length cs)) 0 * p).
  { apply fold_sum_scaled; [|ring].
    intros i Hi. apply in_seq in Hi.
    rewrite app_nth1 by lia.
    replace (List.length cs - 0 - i)%nat with (S (List.length cs - 1 - i)) by lia.
    rewrite Nat2Z.inj_succ. unfold Z.succ.
    rewrite Qpower_plus' by lia. simpl (p ^ 1). ring. }
  replace (S (List.length cs) - 1)%nat with (List.length cs - 0)%nat by lia.
  rewrite E. ring.
Qed.

Lemma horner_snoc cs c p : horner (cs ++ [c]) p = horner cs p * p + c.
Proof. unfold horner. now rewrite fold_left_app. Qed.

Lemma volt_mapQ_horner p cs : volt_mapQ p cs == horner cs p.
Proof.
  induction cs as [|c cs IH] using rev_ind; [reflexivity|].
  rewrite volt_mapQ_snoc, horner_snoc, IH. reflexivity.
Qed.


Lemma horner_at_zero cs : horner cs 0 == last cs 0.
Proof.
  induction cs as [|c cs IH] using rev_ind; [reflexivity|].
  rewrite horner_snoc, last_last. ring.
Qed.

(** X10.  At phase 0 the voltage is the last coefficient, the constant term
    ([0.0 ** 0] is 1 and every higher power of 0 is 0); with no coefficient
    at all it is 0. *)
Theorem volt_map_at_zero_phase :
  forall cs : list Q,
    exists v, volt_map (Fin 0) (map Fin cs) = Fin v /\ v == last cs 0.
Proof.
  intros cs. exists (volt_mapQ 0 cs). split.
  - apply volt_map_Fin.
  - rewrite volt_mapQ_horner. apply horner_at_zero.
Qed.

Lemma volt_fold_nan (g : nat -> float64) l :
  fold_left (fun ret i => F.add ret (g i)) l NaN = NaN.
Proof. induction l as [|i t IH]; simpl; auto. Qed.

(** X11.  A NaN phase: a polynomial with two coefficients or more gives NaN,
    whatever the coefficients (zeros included); a single coefficient [c], a
    constant polynomial, gives [0 + c * 1], because [NaN ** 0] is 1. *)
Theorem volt_map_nan_phase :
  forall cs : list float64,
    match cs with
    | [] => volt_map NaN cs = Fin 0
    | [c] => volt_map NaN cs = F.add (Fin 0) (F.mul c (Fin 1))
    | _ :: _ :: _ => volt_map NaN cs = NaN
    end.
Proof.
  intros [|c0 [|c1 t]]; try reflexivity.
  unfold volt_map.
  change (seq 0 (List.length (c0 :: c1 :: t)))
    with (0%nat :: seq 1 (List.length (c1 :: t))).
  cbn [fold_left].
  replace (List.length (c0 :: c1 :: t) - 1 - 0)%nat with (S (List.length t))
    by (simpl; lia).
  cbn [F.pow F.lift1]. rewrite mul_nan_r. cbn [F.add F.lift2].
  apply (volt_fold_nan
           (fun i => F.mul (nth i (c0 :: c1 :: t) NaN)
                           (F.pow NaN (List.length (c0 :: c1 :: t) - 1 - i)))).
Qed.

(** * Further properties of [ris_voltage_vector] *)

(** [a[i]] for a Python int: the indices [-n <= i < n] are the valid ones,
    and [i] selects the element at [i mod n]. *)
Lemma getitem_int_cases {A} (a : list A) (i : Z) (d : A) :
  let n := Z.of_nat (List.length a) in
  ((- n <= i < n)%Z ->
     getitem_int a i = Ok (nth (Z.to_nat (i mod n)) a d)) /\
  (~ (- n <= i < n)%Z -> getitem_int a i = Raise IndexError).
Proof.
  cbv zeta. unfold getitem_int, getitem.
  set (n := Z.of_nat (List.length a)).
  assert (Hn : (0 <= n)%Z) by (unfold n; lia).
  destruct (0 <=? i)%Z eqn:E0.
  - apply Z.leb_le in E0. split.
    + intros [_ Hi]. rewrite Z.mod_small by lia.
      rewrite (nth_error_nth' a d) by (unfold n in Hi; lia). reflexivity.
    + intros Hout.
      assert (Hge : (List.length a <= Z.to_nat i)%nat) by (unfold n in Hout; lia).
      apply nth_error_None in Hge. now rewrite Hge.
  - apply Z.leb_gt in E0.
    destruct (- n <=? i)%Z eqn:E1.
    + apply Z.leb_le in E1. split; [|intros Hout; lia].
      intros _.
      assert (Em : (i mod n = n + i)%Z).
      { symmetry. apply (Z.mod_unique i n (-1) (n + i)); lia. }
      rewrite Em.
      rewrite (nth_error_nth' a d) by (unfold n in *; lia). reflexivity.
    + apply Z.leb_gt in E1. split; [intros; lia|reflexivity].
Qed.

(** X12.  The outcomes of [ris_voltage_vector], in the order the code runs
    into them: no file at [coeff_path] raises [FileNotFoundError]; a file
    without the key ["coefficients"] raises [KeyError]; then the error of
    [steering_phases], if any; then [IndexError] when [freq_idx] is outside
    [-n <= freq_idx < n] for a table of [n] rows.  Otherwise the call
    returns the outputs for the row [freq_idx mod n]. *)
Theorem ris_voltage_vector_outcomes :
  forall (sin cos : Q -> Q) (fs : string -> option npz)
         (theta phi : float64) (path : string) (idx : Z) (max_phase : float64),
    match ris_voltage_vector sin cos fs theta phi path idx max_phase with
    | Raise e =>
        (fs path = None /\ e = FileNotFoundError) \/
        (exists data, fs path = Some data /\ coefficients data = None /\
                      e = KeyError) \/
        (exists data coeffs,
           fs path = Some data /\ coefficients data = Some coeffs /\
           ((steering_phases sin cos theta phi None None max_phase = Raise e) \/
            (exists r, steering_phases sin cos theta phi None None max_phase = Ok r /\
                       ~ (- Z.of_nat (List.length coeffs) <= idx
                          < Z.of_nat (List.length coeffs))%Z /\
                       e = IndexError)))
    | Ok (vec, phases, voltages, inf) =>
        exists data coeffs,
          fs path = Some data /\ coefficients data = Some coeffs /\
          steering_phases sin cos theta phi None None max_phase = Ok (phases, inf) /\
          (- Z.of_nat (List.length coeffs) <= idx < Z.of_nat (List.length coeffs))%Z /\
          voltage_outputs
            (nth (Z.to_nat (idx mod Z.of_nat (List.length coeffs))) coeffs [])
            phases
          = (vec, voltages)
    end.
Proof.
  intros sin cos fs theta phi path idx W.
  unfold ris_voltage_vector, np_load, key.
  destruct (fs path) as [data|]; cbn [bind]; [|left; auto].
  destruct (coefficients data) as [coeffs|] eqn:Hc; cbn [bind];
    [|right; left; eauto].
  destruct (steering_phases sin cos theta phi None None W) as [[phases inf]|e] eqn:Hst;
    cbn [bind]; [|right; right; exists data, coeffs; auto].
  destruct (getitem_int_cases coeffs idx []) as [Hin Hout]. cbv zeta in Hin, Hout.
  destruct (Z_le_dec (- Z.of_nat (List.length coeffs)) idx) as [H1|H1];
    [destruct (Z_lt_dec idx (Z.of_nat (List.length coeffs))) as [H2|H2]|].
  - rewrite (Hin (conj H1 H2)). cbn [bind].
    destruct (voltage_outputs _ phases) as [vec voltages] eqn:Ev.
    exists data, coeffs.
    split; [reflexivity|]. split; [exact Hc|]. split; [reflexivity|].
    split; [lia|]. exact Ev.
  - rewrite Hout by lia. cbn [bind]. right. right. exists data, coeffs.
    split; [reflexivity|]. split; [exact Hc|]. right.
    exists (phases, inf). split; [reflexivity|]. split; [lia|reflexivity].
  - rewrite Hout by lia. cbn [bind]. right. right. exists data, coeffs.
    split; [reflexivity|]. split; [exact Hc|]. right.
    exists (phases, inf). split; [reflexivity|]. split; [lia|reflexivity].
Qed.



(** ** The catalog without duplicates *)

Lemma key_lt_trans x y z : key_lt x y -> key_lt y z -> key_lt x z.
Proof. unfold key_lt. intros [H|[H1 H2]] [K|[K1 K2]]; [left|left|left|right; split]; lra. Qed.

Lemma key_lt_asym x y : key_lt x y -> key_lt y x -> False.
Proof. unfold key_lt. intros [H|[H1 H2]] [K|[K1 K2]]; lra. Qed.

Lemma key_lt_not_same x y : key_lt x y -> ~ same_key x y.
Proof. unfold key_lt, same_key. intros [H|[H1 H2]] [K1 K2]; lra. Qed.

Lemma same_key_sym x y : same_key x y -> same_key y x.
Proof. unfold same_key. intros [H1 H2]. split; lra. Qed.

(** With more than one value in the vector of [x], [x < y] is decided by
    the angles or raises. *)
Lemma entry_lt_strict x y :
  finite_angles x -> finite_angles y -> long_vector x ->
  match entry_lt x y with
  | Ok true => key_lt x y
  | Ok false => key_lt y x
  | Raise e => e = ValueError_truth /\ same_key x y
  end.
Proof.
  intros [Hx1 Hx2] [Hy1 Hy2] Hl. unfold entry_lt, key_lt, same_key.
  unfold long_vector in Hl.
  destruct (entry_el x) as [|a]; [discriminate|].
  destruct (entry_az x) as [|b]; [discriminate|].
  destruct (entry_el y) as [|c]; [discriminate|].
  destruct (entry_az y) as [|d]; [discriminate|].
  cbn [F.eqb F.ltb value].
  destruct (Qeq_bool a c) eqn:E1; cbn [negb].
  2:{ apply Qeq_bool_neq in E1.
      destruct (Qle_bool c a) eqn:E2; cbn [negb].
      - apply Qle_bool_iff in E2. left. lra.
      - apply Qle_bool_false in E2. left. exact E2. }
  apply Qeq_bool_iff in E1.
  destruct (Qeq_bool b d) eqn:E3; cbn [negb].
  2:{ apply Qeq_bool_neq in E3.
      destruct (Qle_bool d b) eqn:E4; cbn [negb].
      - apply Qle_bool_iff in E4. right. split; lra.
      - apply Qle_bool_false in E4. right. split; lra. }
  apply Qeq_bool_iff in E3.
  unfold ndarray_truth.
  destruct (entry_vector x) as [|u [|u' tu]]; cbn [bind]; simpl in Hl; try lia.
  split; [reflexivity|split; assumption].
Qed.

Section SortPermutation.
Context {A : Type}.
Variable lt : A -> A -> result bool.

(** [list.sort()] loses and adds nothing. *)
Lemma sort_insert_perm pivot l r :
  sort_insert lt pivot l = Ok r -> Permutation r (l ++ [pivot]).
Proof.
  revert r. induction l as [|y t IH]; intros r H; simpl in H.
  - injection H as <-. reflexivity.
  - destruct (lt pivot y) as [[|]|e]; cbn [bind] in H; [| |discriminate H].
    + injection H as <-.
      change (pivot :: y :: t) with ([pivot] ++ (y :: t)).
      apply Permutation_app_comm.
    + destruct (sort_insert lt pivot t) as [r'|e]; [|discriminate H].
      cbn [bind] in H. injection H as <-. simpl. constructor. now apply IH.
Qed.

Lemma fold_sort_perm l acc r :
  fold_left (fun a x => sorted <- a ;; sort_insert lt x sorted) l (Ok acc) = Ok r ->
  Permutation r (acc ++ l).
Proof.
  revert acc. induction l as [|x t IH]; intros acc H; simpl in H.
  - injection H as <-. now rewrite app_nil_r.
  - destruct (sort_insert lt x acc) as [acc'|e] eqn:E.
    2:{ exfalso. clear -H. induction t as [|y t IH]; simpl in H; [discriminate H|auto]. }
    rewrite (IH _ H). rewrite (sort_insert_perm _ _ _ E).
    rewrite <- app_assoc. reflexivity.
Qed.

Lemma list_sort_perm l r : list_sort lt l = Ok r -> Permutation r l.
Proof. intros H. exact (fold_sort_perm l [] r H). Qed.
End SortPermutation.

Lemma sort_insert_strict pivot l r :
  finite_angles pivot -> long_vector pivot -> Forall finite_angles l ->
  StronglySorted key_lt l ->
  sort_insert entry_lt pivot l = Ok r ->
  StronglySorted key_lt r.
Proof.
  intros Hp Hlong. revert r. induction l as [|y t IH]; intros r Hfin Hs H.
  - simpl in H. injection H as <-. repeat constructor.
  - pose proof (sort_insert_perm _ _ _ _ H) as Hperm. simpl in H.
    inversion Hfin as [|? ? Hy Ht]; subst.
    inversion Hs as [|? ? Hst Hall]; subst.
    pose proof (entry_lt_strict pivot y Hp Hy Hlong) as Hc.
    destruct (entry_lt pivot y) as [[|]|e]; cbn [bind] in H; [| |discriminate H].
    + injection H as <-. constructor; [exact Hs|]. constructor; [exact Hc|].
      eapply Forall_impl; [|exact Hall]. intros z Hz.
      eapply key_lt_trans; eassumption.
    + destruct (sort_insert entry_lt pivot t) as [r'|e] eqn:E; [|discriminate H].
      cbn [bind] in H. injection H as <-.
      constructor; [now apply IH|].
      rewrite Forall_forall. intros z Hz.
      apply (Permutation_in _ (sort_insert_perm _ _ _ _ E)) in Hz.
      apply in_app_or in Hz. destruct Hz as [Hz|[<-|[]]]; [|exact Hc].
      rewrite Forall_forall in Hall. now apply Hall.
Qed.

Lemma fold_sort_strict l acc r :
  Forall finite_angles acc -> Forall finite_angles l -> Forall long_vector l ->
  StronglySorted key_lt acc ->
  fold_left (fun a x => sorted <- a ;; sort_insert entry_lt x sorted) l (Ok acc) = Ok r ->
  StronglySorted key_lt r.
Proof.
  revert acc. induction l as [|x t IH]; intros acc Ha Hl Hlong Hs H; simpl in H.
  - now injection H as <-.
  - inversion Hl as [|? ? Hx Ht]; subst. inversion Hlong as [|? ? Hlx Hlt]; subst.
    destruct (sort_insert entry_lt x acc) as [acc'|e] eqn:E.
    2:{ exfalso. clear -H. induction t as [|y t IH]; simpl in H; [discriminate H|auto]. }
    apply (IH acc'); try assumption.
    + rewrite Forall_forall. intros z Hz.
      apply (Permutation_in _ (sort_insert_perm _ _ _ _ E)) in Hz.
      apply in_app_or in Hz. destruct Hz as [Hz|[<-|[]]]; [|exact Hx].
      rewrite Forall_forall in Ha. now apply Ha.
    + exact (sort_insert_strict x acc acc' Hx Hlx Ha Hs E).
Qed.

(** A list with a strictly ascending rearrangement has no two tuples with
    the same angles. *)
Lemma sorted_perm_distinct s l :
  Permutation s l -> StronglySorted key_lt s -> distinct_angles l.
Proof.
  intros Hp Hs l1 x l2 y l3 -> Hk.
  assert (Hx : In x s).
  { apply (Permutation_in _ (Permutation_sym Hp)). apply in_or_app. right. now left. }
  apply in_split in Hx. destruct Hx as (s1 & s2 & ->).
  assert (Hy : In y (s1 ++ s2)).
  { apply (Permutation_in (l := l1 ++ l2 ++ y :: l3)).
    - symmetry. eapply Permutation_app_inv. exact Hp.
    - apply in_or_app. right. apply in_or_app. right. now left. }
  assert (Hcut : forall a b, StronglySorted key_lt (a ++ x :: b) ->
                   (forall z, In z a -> key_lt z x) /\ (forall z, In z b -> key_lt x z)).
  { clear. induction a as [|h a IH]; intros b H; simpl in H.
    - inversion H as [|? ? _ Hall]; subst. split; [intros z []|].
      rewrite Forall_forall in Hall. exact Hall.
    - inversion H as [|? ? Hst Hall]; subst.
      destruct (IH b Hst) as [I1 I2]. split; [|exact I2].
      intros z [<-|Hz]; [|now apply I1].
      rewrite Forall_forall in Hall. apply Hall. apply in_or_app. right. now left. }
  destruct (Hcut s1 s2 Hs) as [H1 H2].
  apply in_app_or in Hy. destruct Hy as [Hy|Hy].
  - apply (key_lt_not_same y x (H1 y Hy)). now apply same_key_sym.
  - exact (key_lt_not_same x y (H2 y Hy) Hk).
Qed.

(** Two strictly ascending rearrangements of the same tuples are the same
    list. *)
Lemma sorted_perm_unique s s' :
  StronglySorted key_lt s -> StronglySorted key_lt s' -> Permutation s s' -> s = s'.
Proof.
  revert s'. induction s as [|x s IH]; intros s' Hs Hs' Hp.
  - apply Permutation_nil in Hp. now subst.
  - destruct s' as [|x' t'].
    { apply Permutation_sym, Permutation_nil in Hp. discriminate Hp. }
    inversion Hs as [|? ? Hst Hall]; subst.
    inversion Hs' as [|? ? Hst' Hall']; subst.
    rewrite Forall_forall in Hall, Hall'.
    assert (x = x').
    { assert (H1 : In x' (x :: s)).
      { apply (Permutation_in _ (Permutation_sym Hp)). now left. }
      assert (H2 : In x (x' :: t')).
      { apply (Permutation_in _ Hp). now left. }
      destruct H1 as [H1|H1]; [exact H1|].
      destruct H2 as [H2|H2]; [now symmetry|].
      exfalso. exact (key_lt_asym x x' (Hall _ H1) (Hall' _ H2)). }
    subst x'. f_equal. apply IH; try assumption.
    eapply Permutation_cons_inv. exact Hp.
Qed.

Lemma sort_insert_succeeds pivot l :
  finite_angles pivot -> Forall finite_angles l ->
  (forall x, In x l -> ~ same_key x pivot) ->
  exists r, sort_insert entry_lt pivot l = Ok r.
Proof.
  intros Hp. induction l as [|y t IH]; intros Hfin Hd; simpl.
  - eexists. reflexivity.
  - inversion Hfin as [|? ? Hy Ht]; subst.
    pose proof (entry_lt_cases pivot y Hp Hy) as Hc.
    destruct (entry_lt pivot y) as [[|]|e]; cbn [bind].
    + eexists. reflexivity.
    + destruct (IH Ht) as [r ->]; [intros x Hx; apply Hd; now right|].
      eexists. reflexivity.
    + exfalso. destruct Hc as [_ Hc]. apply (Hd y); [now left|].
      now apply same_key_sym.
Qed.

Lemma fold_sort_succeeds rest prefix acc :
  distinct_angles (prefix ++ rest) -> Permutation acc prefix ->
  Forall finite_angles (prefix ++ rest) ->
  exists r,
    fold_left (fun a x => sorted <- a ;; sort_insert entry_lt x sorted) rest (Ok acc)
    = Ok r.
Proof.
  revert prefix acc. induction rest as [|x t IH]; intros prefix acc Hd Hp Hfin; simpl.
  - eexists. reflexivity.
  - assert (Hfa : Forall finite_angles acc /\ finite_angles x).
    { rewrite Forall_forall in Hfin. split.
      - rewrite Forall_forall. intros z Hz. apply Hfin. apply in_or_app. left.
        now apply (Permutation_in _ Hp).
      - apply Hfin. apply in_or_app. right. now left. }
    destruct Hfa as [Ha Hx].
    destruct (sort_insert_succeeds x acc Hx Ha) as [acc' E].
    { intros z Hz. apply (Permutation_in _ Hp) in Hz.
      apply in_split in Hz. destruct Hz as (l1 & l2 & ->).
      apply (Hd l1 z l2 x t). rewrite <- app_assoc. reflexivity. }
    rewrite E. apply (IH (prefix ++ [x])).
    + now rewrite <- app_assoc.
    + rewrite (sort_insert_perm _ _ _ _ E). now apply Permutation_app_tail.
    + now rewrite <- app_assoc.
Qed.

(** The tuples are labelled by their angles. *)
Lemma scan_entries_label folder :
  Forall (fun e => entry_label e = mk_label (entry_el e) (entry_az e))
         (scan_entries folder).
Proof.
  rewrite Forall_forall. intros e He. unfold scan_entries in He.
  apply in_flat_map in He. destruct He as ([file data] & _ & He).
  destruct (endswith file ".npz"); [|destruct He].
  destruct (ris_settings data), (target_azimuth data), (target_elevation data);
    simpl in He; try contradiction.
  destruct He as [<-|[]]. reflexivity.
Qed.

Lemma key_lt_label x y :
  finite_angles x -> finite_angles y -> key_lt x y ->
  label_eqb (mk_label (entry_el x) (entry_az x)) (mk_label (entry_el y) (entry_az y))
  = false.
Proof.
  intros [Hx1 Hx2] [Hy1 Hy2]. unfold key_lt, label_eqb. cbn [label_theta label_phi].
  destruct (entry_el x) as [|a]; [discriminate|].
  destruct (entry_az x) as [|b]; [discriminate|].
  destruct (entry_el y) as [|c]; [discriminate|].
  destruct (entry_az y) as [|d]; [discriminate|].
  cbn [value same_b]. intros H.
  destruct (Qeq_bool a c) eqn:E1; [|reflexivity].
  destruct (Qeq_bool b d) eqn:E2; [|reflexivity].
  apply Qeq_bool_iff in E1, E2. exfalso. lra.
Qed.

Lemma dict_set_fresh d k v :
  (forall kv, In kv d -> label_eqb (fst kv) k = false) ->
  dict_set d k v = d ++ [(k, v)].
Proof.
  induction d as [|[k' v'] t IH]; intros H; simpl; [reflexivity|].
  pose proof (H (k', v') (or_introl eq_refl)) as Hk. cbn [fst] in Hk.
  rewrite Hk. f_equal. apply IH.
  intros kv Hkv. apply H. now right.
Qed.

Lemma fold_dict_sorted entries done :
  StronglySorted key_lt (done ++ entries) ->
  Forall finite_angles (done ++ entries) ->
  Forall (fun e => entry_label e = mk_label (entry_el e) (entry_az e))
         (done ++ entries) ->
  fold_left (fun d e =>
      dict_set d (entry_label e)
        (mk_data (entry_vector e) (entry_az e) (entry_el e)))
    entries (map record_of done)
  = map record_of (done ++ entries).
Proof.
  revert done. induction entries as [|x t IH]; intros done Hs Hfin Hlab; simpl.
  - now rewrite app_nil_r.
  - rewrite dict_set_fresh.
    + change [(entry_label x, mk_data (entry_vector x) (entry_az x) (entry_el x))]
        with (map record_of [x]).
      rewrite <- map_app.
      replace (done ++ x :: t) with ((done ++ [x]) ++ t)
        by (rewrite <- app_assoc; reflexivity).
      apply IH; rewrite <- app_assoc; assumption.
    + intros kv Hkv. apply in_map_iff in Hkv. destruct Hkv as (z & <- & Hz).
      cbn [record_of fst].
      rewrite Forall_forall in Hfin, Hlab.
      rewrite (Hlab z), (Hlab x);
        try (apply in_or_app; first [left; assumption | right; now left]).
      apply key_lt_label;
        try (apply Hfin; apply in_or_app; first [left; assumption | right; now left]).
      clear -Hs Hz. induction done as [|h done IH]; [destruct Hz|].
      simpl in Hs. inversion Hs as [|? ? Hst Hall]; subst.
      destruct Hz as [<-|Hz]; [|now apply IH].
      rewrite Forall_forall in Hall. apply Hall. apply in_or_app. right. now left.
Qed.

Lemma perm_Forall {A} (P : A -> Prop) l l' :
  Permutation l l' -> Forall P l' -> Forall P l.
Proof.
  intros Hp H. rewrite Forall_forall in *. intros x Hx. apply H.
  now apply (Permutation_in _ Hp).
Qed.

(** The shape of a returned catalog when the settings vectors hold more
    than one value. *)
Lemma load_returns folder labels data :
  Forall finite_angles (scan_entries folder) ->
  Forall long_vector (scan_entries folder) ->
  load_data_from_directory folder = Ok (labels, data) ->
  exists entries,
    list_sort entry_lt (scan_entries folder) = Ok entries /\
    Permutation entries (scan_entries folder) /\
    StronglySorted key_lt entries /\
    labels = map entry_label entries /\
    data = map record_of entries.
Proof.
  intros Hfin Hlong H. unfold load_data_from_directory in H.
  apply bind_Ok in H. destruct H as (entries & Hsort & H).
  injection H as <- <-. exists entries.
  pose proof (list_sort_perm _ _ _ Hsort) as Hp.
  assert (Hs : StronglySorted key_lt entries).
  { unfold list_sort in Hsort.
    exact (fold_sort_strict _ [] _ (Forall_nil _) Hfin Hlong (SSorted_nil _) Hsort). }
  repeat split; try assumption; try reflexivity.
  apply (fold_dict_sorted entries []); simpl; try assumption.
  - exact (perm_Forall _ _ _ Hp Hfin).
  - exact (perm_Forall _ _ _ Hp (scan_entries_label folder)).
Qed.


Lemma distinct_directory_finite : Forall finite_angles (scan_entries distinct_directory).
Proof. vm_compute. repeat constructor. Qed.

Lemma distinct_directory_long : Forall long_vector (scan_entries distinct_directory).
Proof. repeat constructor; vm_compute; lia. Qed.



(** ** The listing order and the other files *)

Lemma scan_entries_filter folder :
  scan_entries (filter qualifies folder) = scan_entries folder.
Proof.
  induction folder as [|[file data] t IH]; [reflexivity|].
  unfold scan_entries in *. cbn [filter flat_map].
  unfold qualifies at 1. cbn [fst snd].
  destruct (endswith file ".npz") eqn:E; cbn [andb]; [|exact IH].
  destruct (ris_settings data) eqn:E1; [|exact IH].
  destruct (target_azimuth data) eqn:E2; [|exact IH].
  destruct (target_elevation data) eqn:E3; [|exact IH].
  cbn [flat_map]. rewrite E, E1, E2, E3. now rewrite IH.
Qed.

Lemma scan_entries_perm folder folder' :
  Permutation folder folder' ->
  Permutation (scan_entries folder) (scan_entries folder').
Proof.
  intros H. unfold scan_entries.
  induction H as [|x l l' _ IH|x y l|l l' l'' _ IH1 _ IH2]; simpl.
  - constructor.
  - now apply Permutation_app_head.
  - rewrite !app_assoc. apply Permutation_app_tail. apply Permutation_app_comm.
  - now transitivity (flat_map
      (fun '(file, data) =>
         if endswith file ".npz"
         then match ris_settings data, target_azimuth data, target_elevation data with
              | Some settings, Some az, Some el =>
                  [mk_entry el az (mk_label el az) (map np.round2 settings)]
              | _, _, _ => []
              end
         else []) l').
Qed.

Lemma load_from_sorted folder entries :
  list_sort entry_lt (scan_entries folder) = Ok entries ->
  load_data_from_directory folder
  = Ok (map entry_label entries,
        fold_left (fun d e =>
            dict_set d (entry_label e)
              (mk_data (entry_vector e) (entry_az e) (entry_el e)))
          entries []).
Proof. intros H. unfold load_data_from_directory. rewrite H. reflexivity. Qed.

(** A catalog that comes back for one listing comes back, the same, for
    every listing of the same qualifying files. *)
Lemma load_relisted folder folder' r :
  Permutation (filter qualifies folder) (filter qualifies folder') ->
  Forall finite_angles (scan_entries folder) ->
  Forall long_vector (scan_entries folder) ->
  load_data_from_directory folder = Ok r ->
  load_data_from_directory folder' = Ok r.
Proof.
  intros Hperm Hfin Hlong H. destruct r as [labels data].
  assert (Hsc : Permutation (scan_entries folder') (scan_entries folder)).
  { rewrite <- (scan_entries_filter folder), <- (scan_entries_filter folder').
    apply scan_entries_perm. now symmetry. }
  pose proof (perm_Forall _ _ _ Hsc Hfin) as Hfin'.
  pose proof (perm_Forall _ _ _ Hsc Hlong) as Hlong'.
  destruct (load_returns folder labels data Hfin Hlong H)
    as (entries & Hsort & Hp & Hs & _).
  rewrite (load_from_sorted _ _ Hsort) in H. rewrite <- H.
  assert (Hd : distinct_angles (scan_entries folder')).
  { apply (sorted_perm_distinct entries); [|exact Hs].
    rewrite Hp. now symmetry. }
  destruct (fold_sort_succeeds (scan_entries folder') [] [] Hd (perm_nil _) Hfin')
    as [entries' Hsort'].
  change (list_sort entry_lt (scan_entries folder') = Ok entries') in Hsort'.
  assert (entries' = entries).
  { apply sorted_perm_unique.
    - unfold list_sort in Hsort'.
      exact (fold_sort_strict _ [] _ (Forall_nil _) Hfin' Hlong' (SSorted_nil _) Hsort').
    - exact Hs.
    - rewrite (list_sort_perm _ _ _ Hsort'). rewrite Hsc. now symmetry. }
  subst entries'. exact (load_from_sorted _ _ Hsort').
Qed.

(** X16.  The result does not depend on the order in which the directory is
    listed, nor on the files that hold no record: two directories with the
    same qualifying files (finite angles, settings vectors of more than one
    value) give the same catalog, or both raise the same error. *)
Theorem catalog_ignores_listing_order :
  forall folder folder' : directory,
    Permutation (filter qualifies folder) (filter qualifies folder') ->
    Forall finite_angles (scan_entries folder) ->
    Forall long_vector (scan_entries folder) ->
    load_data_from_directory folder' = load_data_from_directory folder.
Proof.
  intros folder folder' Hperm Hfin Hlong.
  assert (Hsc : Permutation (scan_entries folder') (scan_entries folder)).
  { rewrite <- (scan_entries_filter folder), <- (scan_entries_filter folder').
    apply scan_entries_perm. now symmetry. }
  pose proof (perm_Forall _ _ _ Hsc Hfin) as Hfin'.
  pose proof (perm_Forall _ _ _ Hsc Hlong) as Hlong'.
  destruct (load_data_from_directory folder) as [r|e] eqn:E.
  - exact (load_relisted folder folder' r Hperm Hfin Hlong E).
  - destruct (load_data_from_directory folder') as [r'|e'] eqn:E'.
    + rewrite (load_relisted folder' folder r' (Permutation_sym Hperm) Hfin' Hlong' E') in E.
      discriminate E.
    + assert (Hraise : forall f x, load_data_from_directory f = Raise x ->
                                   x = ValueError_truth).
      { intros f x Hx. unfold load_data_from_directory in Hx.
        destruct (list_sort entry_lt (scan_entries f)) as [s|x'] eqn:Es;
          [discriminate Hx|].
        cbn [bind] in Hx. injection Hx as <-.
        exact (fold_sort_raise_truth _ _ _ Es). }
      rewrite (Hraise _ _ E), (Hraise _ _ E'). reflexivity.
Qed.

Lemma catalog_ignores_listing_order_witness :
  load_data_from_directory relisted_directory
  = load_data_from_directory distinct_directory.
Proof.
  apply (catalog_ignores_listing_order distinct_directory relisted_directory).
  - vm_compute.
    match goal with
    | |- Permutation [?a; ?b; ?d] _ =>
        exact (Permutation_sym (Permutation_cons_append [a; b] d))
    end.
  - exact distinct_directory_finite.
  - exact distinct_directory_long.
Defined.

(** ** Where the items of the catalog come from *)

Lemma label_eqb_refl k : label_eqb k k = true.
Proof.
  unfold label_eqb.
  assert (R : forall x, same_b x x = true).
  { intros [|q]; simpl; [reflexivity|]. apply Qeq_bool_iff. reflexivity. }
  now rewrite !R.
Qed.

Lemma dict_set_items d k v kv :
  In kv (dict_set d k v) ->
  (In kv d) \/ (label_eqb (fst kv) k = true /\ snd kv = v).
Proof.
  induction d as [|[k' v'] t IH]; simpl.
  - intros [<-|[]]. right. split; [apply label_eqb_refl|reflexivity].
  - destruct (label_eqb k' k) eqn:E.
    + intros [<-|H]; [right; split; [exact E|reflexivity]|left; now right].
    + intros [<-|H]; [left; now left|].
      destruct (IH H) as [H'|H']; [left; now right|right; exact H'].
Qed.

Lemma dict_set_keys d k v :
  (exists kv, In kv (dict_set d k v) /\ label_eqb (fst kv) k = true) /\
  (forall kv, In kv d -> exists kv', In kv' (dict_set d k v) /\ fst kv' = fst kv).
Proof.
  induction d as [|[k' v'] t [IH1 IH2]]; simpl.
  - split; [|intros kv []]. exists (k, v). split; [now left|apply label_eqb_refl].
  - destruct (label_eqb k' k) eqn:E.
    + split.
      * exists (k', v). split; [now left|exact E].
      * intros kv [<-|H]; [exists (k', v); split; [now left|reflexivity]|].
        exists kv. split; [now right|reflexivity].
    + split.
      * destruct IH1 as (kv & H1 & H2). exists kv. split; [now right|exact H2].
      * intros kv [<-|H]; [exists (k', v'); split; [now left|reflexivity]|].
        destruct (IH2 kv H) as (kv' & H1 & H2). exists kv'. split; [now right|exact H2].
Qed.

Lemma fold_dict_items entries d kv :
  In kv (fold_left (fun d e =>
            dict_set d (entry_label e)
              (mk_data (entry_vector e) (entry_az e) (entry_el e)))
          entries d) ->
  In kv d \/
  exists e, In e entries /\ label_eqb (fst kv) (entry_label e) = true /\
            snd kv = mk_data (entry_vector e) (entry_az e) (entry_el e).
Proof.
  revert d. induction entries as [|x t IH]; intros d H; simpl in H; [now left|].
  destruct (IH _ H) as [H'|(e & He & H')].
  - apply dict_set_items in H'. destruct H' as [H'|[H1 H2]]; [now left|].
    right. exists x. split; [now left|]. split; assumption.
  - right. exists e. split; [now right|exact H'].
Qed.

Lemma fold_dict_keys entries d :
  let d' := fold_left (fun d e =>
              dict_set d (entry_label e)
                (mk_data (entry_vector e) (entry_az e) (entry_el e)))
            entries d in
  (forall kv, In kv d -> exists kv', In kv' d' /\ fst kv' = fst kv) /\
  (forall e, In e entries ->
     exists kv, In kv d' /\ label_eqb (fst kv) (entry_label e) = true).
Proof.
  revert d. induction entries as [|x t IH]; intros d; simpl.
  - split; [intros kv H; exists kv; auto|intros e []].
  - destruct (IH (dict_set d (entry_label x)
                    (mk_data (entry_vector x) (entry_az x) (entry_el x))))
      as [I1 I2].
    destruct (dict_set_keys d (entry_label x)
                (mk_data (entry_vector x) (entry_az x) (entry_el x))) as [K1 K2].
    split.
    + intros kv H. destruct (K2 kv H) as (kv' & H1 & H2).
      destruct (I1 kv' H1) as (kv'' & H3 & H4). exists kv''. split; [exact H3|congruence].
    + intros e [<-|He]; [|now apply I2].
      destruct K1 as (kv & H1 & H2). destruct (I1 kv H1) as (kv' & H3 & H4).
      exists kv'. split; [exact H3|]. now rewrite H4.
Qed.

Lemma scan_entries_origin folder e :
  In e (scan_entries folder) ->
  exists file d settings az el,
    In (file, d) folder /\ endswith file ".npz" = true /\
    ris_settings d = Some settings /\ target_azimuth d = Some az /\
    target_elevation d = Some el /\
    e = mk_entry el az (mk_label el az) (map np.round2 settings).
Proof.
  intros He. unfold scan_entries in He.
  apply in_flat_map in He. destruct He as ([file data] & Hin & He).
  destruct (endswith file ".npz") eqn:E; [|destruct He].
  destruct (ris_settings data) as [s|] eqn:E1, (target_azimuth data) as [az|] eqn:E2,
           (target_elevation data) as [el|] eqn:E3;
    simpl in He; try contradiction.
  destruct He as [<-|[]]. exists file, data, s, az, el. auto 10.
Qed.

(** X17.  Every item of a returned [label_to_data] comes from one
    qualifying file of the directory: its vector is that file's
    [ris_settings] rounded to two decimals, its azimuth and elevation are
    the file's, and its key is the label printed from them.  Every returned
    label is a key of the dictionary. *)
Theorem catalog_items_come_from_files :
  forall (folder : directory) labels data,
    load_data_from_directory folder = Ok (labels, data) ->
    (forall k v, In (k, v) data ->
       exists file d settings az el,
         In (file, d) folder /\ endswith file ".npz" = true /\
         ris_settings d = Some settings /\ target_azimuth d = Some az /\
         target_elevation d = Some el /\
         label_eqb k (mk_label el az) = true /\
         v = mk_data (map np.round2 settings) az el) /\
    (forall k, In k labels ->
       exists k' v, In (k', v) data /\ label_eqb k' k = true).
Proof.
  intros folder labels data H. unfold load_data_from_directory in H.
  apply bind_Ok in H. destruct H as (entries & Hsort & H).
  injection H as <- <-.
  pose proof (list_sort_perm _ _ _ Hsort) as Hp. split.
  - intros k v Hkv. apply fold_dict_items in Hkv.
    destruct Hkv as [[]|(e & He & H1 & H2)]. cbn [fst snd] in H1, H2.
    apply (Permutation_in _ Hp) in He.
    destruct (scan_entries_origin _ _ He)
      as (file & d & settings & az & el & F1 & F2 & F3 & F4 & F5 & ->).
    exists file, d, settings, az, el. cbn in H1, H2. auto 10.
  - intros k Hk. apply in_map_iff in Hk. destruct Hk as (e & <- & He).
    destruct (fold_dict_keys entries []) as [_ K].
    destruct (K e He) as ([k' v] & H1 & H2). exists k', v. auto.
Qed.

Lemma catalog_items_come_from_files_witness :
  exists labels data,
    load_data_from_directory distinct_directory = Ok (labels, data) /\
    forall k, In k labels ->
      exists k' v, In (k', v) data /\ label_eqb k' k = true.
Proof.
  assert (E : exists r, load_data_from_directory distinct_directory = Ok r)
    by (eexists; vm_compute; reflexivity).
  destruct E as [[labels data] E].
  exists labels, data. split; [exact E|].
  exact (proj2 (catalog_items_come_from_files distinct_directory labels data E)).
Defined.

(** ** The same angles in another order *)

Lemma Qmod_comp a a' b : a == a' -> Qmod a b == Qmod a' b.
Proof.
  intros H. unfold Qmod.
  assert (E : a / b == a' / b) by (rewrite H; reflexivity).
  rewrite (Qfloor_comp _ _ E), H. reflexivity.
Qed.

Lemma Forall2_in_r {A B} (R : A -> B -> Prop) l l' y :
  Forall2 R l l' -> In y l' -> exists x, In x l /\ R x y.
Proof.
  induction 1 as [|a b l l' Hab _ IH]; intros Hy; [destruct Hy|].
  destruct Hy as [<-|Hy].
  - exists a. split; [now left|exact Hab].
  - destruct (IH Hy) as (x & Hx & Hr). exists x. split; [now right|exact Hr].
Qed.

Lemma Forall2_Qeq_nth a b i : Forall2 Qeq a b -> nth i a 0 == nth i b 0.
Proof.
  intros H. revert i. induction H as [|x y a b Hxy _ IH]; intros [|i]; simpl;
    try reflexivity; auto.
Qed.

Lemma Forall2_Qeq_sym a b : Forall2 Qeq a b -> Forall2 Qeq b a.
Proof. induction 1; constructor; [now symmetry|assumption]. Qed.

Lemma Forall2_rev_both {A B} (R : A -> B -> Prop) l l' :
  Forall2 R l l' -> Forall2 R (rev l) (rev l').
Proof.
  induction 1 as [|a b l l' Hab _ IH]; simpl; [constructor|].
  apply Forall2_app; [exact IH|]. constructor; [exact Hab|constructor].
Qed.

(** Two ascending lists that hold the same values, up to the way a value is
    written, agree position by position. *)
Lemma sorted_equiv a :
  forall b, StronglySorted Qle a -> StronglySorted Qle b ->
  (exists a', Forall2 Qeq a a' /\ Permutation a' b) ->
  Forall2 Qeq a b.
Proof.
  induction a as [|x t IH]; intros b Ha Hb (a' & Hq & Hp).
  - inversion Hq; subst. apply Permutation_nil in Hp. subst. constructor.
  - inversion Hq as [|? x' ? t' Hxx' Htt']; subst.
    destruct b as [|y u].
    { apply Permutation_sym, Permutation_nil in Hp. discriminate Hp. }
    inversion Ha as [|? ? Hst Hall]; subst.
    inversion Hb as [|? ? Hsu Hallu]; subst.
    rewrite Forall_forall in Hall, Hallu.
    assert (Hy : In y (x' :: t')).
    { apply (Permutation_in _ (Permutation_sym Hp)). now left. }
    assert (Hx' : In x' (y :: u)).
    { apply (Permutation_in _ Hp). now left. }
    assert (Hyx : y <= x).
    { destruct Hx' as [->|Hx']; [rewrite Hxx'; apply Qle_refl|].
      rewrite Hxx'. now apply Hallu. }
    assert (Hxy : x <= y).
    { destruct Hy as [<-|Hy]; [rewrite Hxx'; apply Qle_refl|].
      destruct (Forall2_in_r _ _ _ _ Htt' Hy) as (z & Hz & Hzy).
      rewrite <- Hzy. now apply Hall. }
    assert (E : x == y) by (apply Qle_antisym; assumption).
    constructor; [exact E|].
    apply IH; try assumption.
    destruct Hy as [<-|Hy].
    + exists t'. split; [exact Htt'|]. eapply Permutation_cons_inv. exact Hp.
    + apply in_split in Hy. destruct Hy as (t1 & t2 & ->).
      apply Forall2_app_inv_r in Htt'.
      destruct Htt' as (s1 & s2' & H1 & H2 & ->).
      inversion H2 as [|z ? s2 ? Hzy H2']; subst.
      exists (t1 ++ x' :: t2). split.
      * apply Forall2_app; [exact H1|]. constructor; [|exact H2'].
        rewrite Hzy, <- E. exact Hxx'.
      * apply Permutation_sym.
        transitivity (x' :: t1 ++ t2); [|apply Permutation_middle].
        apply (Permutation_cons_app_inv (x' :: t1) t2 (a := y)).
        apply Permutation_sym. exact Hp.
Qed.

Lemma sorted_angles_reversed qs qs' :
  Forall2 Qeq qs' (rev qs) ->
  Forall2 Qeq (sorted_angles qs') (sorted_angles qs).
Proof.
  intros H. apply sorted_equiv; try apply sorted_angles_sorted.
  unfold sorted_angles, sortQ.
  assert (Hm : Forall2 Qeq (map (fun x => Qmod x 360) qs')
                           (map (fun x => Qmod x 360) (rev qs))).
  { clear -H. induction H; simpl; constructor; [now apply Qmod_comp|assumption]. }
  destruct (Permutation_Forall2
              (Permutation_sym (isort_perm Qle_bool (map (fun x => Qmod x 360) qs')))
              Hm) as (l2 & Hp & Hq).
  exists l2. split; [exact Hq|].
  rewrite <- Hp. rewrite map_rev. rewrite <- Permutation_rev.
  apply Permutation_sym. apply isort_perm.
Qed.

Lemma circular_gap_equiv a b i :
  Forall2 Qeq a b -> circular_gap a i == circular_gap b i.
Proof.
  intros H. unfold circular_gap. rewrite (Forall2_length H).
  destruct (S i <? List.length b)%nat.
  - now rewrite (Forall2_Qeq_nth a b (S i) H), (Forall2_Qeq_nth a b i H).
  - now rewrite (Forall2_Qeq_nth a b 0 H), (Forall2_Qeq_nth a b i H).
Qed.

Lemma first_widest_gap_equiv a b k :
  Forall2 Qeq a b -> first_widest_gap a k -> first_widest_gap b k.
Proof.
  intros H (H1 & H2 & H3). unfold first_widest_gap.
  rewrite <- (Forall2_length H). split; [exact H1|]. split.
  - intros i Hi. rewrite <- !(circular_gap_equiv a b _ H). now apply H2.
  - intros i Hi. rewrite <- !(circular_gap_equiv a b _ H). now apply H3.
Qed.

Lemma clip_same x y lo hi :
  F.same x y -> F.same (np.clip x lo hi) (np.clip y lo hi).
Proof.
  destruct x as [|a], y as [|b]; simpl; try tauto.
  intros H. destruct lo as [|l]; [exact I|]. destruct hi as [|h]; [exact I|].
  rewrite !np_clip_Fin. unfold Qclip. simpl.
  assert (E1 : Qle_bool a l = Qle_bool b l).
  { destruct (Qle_bool a l) eqn:Ea, (Qle_bool b l) eqn:Eb; try reflexivity.
    - apply Qle_bool_iff in Ea. apply Qle_bool_false in Eb. lra.
    - apply Qle_bool_iff in Eb. apply Qle_bool_false in Ea. lra. }
  rewrite E1. destruct (Qle_bool b l).
  - destruct (Qle_bool l h); reflexivity.
  - assert (E2 : Qle_bool a h = Qle_bool b h).
    { destruct (Qle_bool a h) eqn:Ea, (Qle_bool b h) eqn:Eb; try reflexivity.
      - apply Qle_bool_iff in Ea. apply Qle_bool_false in Eb. lra.
      - apply Qle_bool_iff in Eb. apply Qle_bool_false in Ea. lra. }
    rewrite E2. destruct (Qle_bool b h); [exact H|reflexivity].
Qed.

(** [_rotate_into_window] on the same angles in reverse order: the same
    rotation and span, the rotated angles in reverse order, or the same
    error. *)
Lemma rotate_reversed qs qs' W atol :
  Forall2 Qeq qs' (rev qs) ->
  match _rotate_into_window (map Fin qs) W atol,
        _rotate_into_window (map Fin qs') W atol with
  | Ok (rot, c, s), Ok (rot', c', s') =>
      Forall2 F.same rot' (rev rot) /\ F.same c' c /\ F.same s' s
  | Raise e, Raise e' => e' = e
  | _, _ => False
  end.
Proof.
  intros H.
  destruct qs as [|q0 qt].
  { simpl in H. inversion H; subst. simpl. reflexivity. }
  assert (Hne : q0 :: qt <> []) by discriminate.
  assert (Hne' : qs' <> []).
  { intros ->. apply Forall2_length in H. rewrite length_rev in H. discriminate H. }
  destruct (rotate_finite_any (q0 :: qt) W atol Hne) as (k & Hk & E).
  destruct (rotate_finite_any qs' W atol Hne') as (k' & Hk' & E').
  pose proof (sorted_angles_reversed _ _ H) as Hs.
  assert (k' = k).
  { apply (first_widest_gap_unique (sorted_angles qs')); [exact Hk'|].
    apply (first_widest_gap_equiv (sorted_angles (q0 :: qt))); [|exact Hk].
    now apply Forall2_Qeq_sym. }
  subst k'. cbv zeta in E, E'. rewrite E, E'. clear E E'.
  rewrite (Forall2_length Hs).
  set (a := sorted_angles (q0 :: qt)) in *. set (a' := sorted_angles qs') in *.
  assert (Hspan : 360 - circular_gap a' k == 360 - circular_gap a k).
  { now rewrite (circular_gap_equiv a' a k Hs). }
  assert (Hstart : nth ((k + 1) mod List.length a) a' 0
                   == nth ((k + 1) mod List.length a) a 0).
  { now apply Forall2_Qeq_nth. }
  set (s := 360 - circular_gap a k) in *. set (s' := 360 - circular_gap a' k) in *.
  set (st := nth ((k + 1) mod List.length a) a 0) in *.
  set (st' := nth ((k + 1) mod List.length a) a' 0) in *.
  assert (Hb : F.leb (Fin s') (F.add W atol) = F.leb (Fin s) (F.add W atol)).
  { destruct (F.add W atol) as [|w]; [reflexivity|]. simpl.
    destruct (Qle_bool s' w) eqn:Ea, (Qle_bool s w) eqn:Eb; try reflexivity.
    - apply Qle_bool_iff in Ea. apply Qle_bool_false in Eb. lra.
    - apply Qle_bool_iff in Eb. apply Qle_bool_false in Ea. lra. }
  rewrite Hb. destruct (F.leb (Fin s) (F.add W atol)).
  - split; [|split; simpl; [now rewrite Hstart|exact Hspan]].
    unfold np_clip. rewrite !map_map. rewrite <- map_rev.
    clearbody st st' s s'. clear -H Hstart.
    induction H as [|x y l l' Hxy _ IH]; simpl; constructor.
    + apply clip_same. simpl. apply Qmod_comp. now rewrite Hxy, Hstart.
    + exact IH.
  - f_equal. f_equal. unfold Qround2.
    assert (E : s' * 100 == s * 100) by (now rewrite Hspan).
    now rewrite (rint_comp _ _ E).
Qed.
(** ** The mirrored elevation *)

Lemma volt_map_same p p' row :
  F.same p p' -> F.same (volt_map p row) (volt_map p' row).
Proof.
  intros H. unfold volt_map.
  generalize (seq 0 (List.length row)). intros l.
  assert (G : forall acc acc', F.same acc acc' ->
    F.same
      (fold_left (fun ret i => F.add ret (F.mul (nth i row NaN)
                                 (F.pow p (List.length row - 1 - i)))) l acc)
      (fold_left (fun ret i => F.add ret (F.mul (nth i row NaN)
                                 (F.pow p' (List.length row - 1 - i)))) l acc')).
  { induction l as [|i l IH]; intros acc acc' Ha; simpl; [exact Ha|].
    apply IH.
    assert (Hp : F.same (F.pow p (List.length row - 1 - i))
                        (F.pow p' (List.length row - 1 - i))).
    { unfold F.pow. destruct (List.length row - 1 - i)%nat; [simpl; reflexivity|].
      destruct p, p'; simpl in *; try tauto. now rewrite H. }
    destruct (nth i row NaN) as [|c]; [destruct acc, acc'; simpl in *; tauto|].
    destruct (F.pow p _), (F.pow p' _), acc, acc'; simpl in *; try tauto.
    now rewrite Ha, Hp. }
  apply G. simpl. reflexivity.
Qed.

Section Mirror.
Variables sin cos : Q -> Q.
Hypothesis sin_comp : forall x y, x == y -> sin x == sin y.
Hypothesis sin_odd : forall x, sin (- x) == - sin x.

Lemma sin_mirror theta :
  sin (- theta * (np_pi / 180)) == - sin (theta * (np_pi / 180)).
Proof.
  rewrite <- sin_odd. apply sin_comp. generalize (np_pi / 180). intros c. ring.
Qed.

Lemma raw_phase_mirror theta phi dx dy m n :
  raw_phaseQ sin cos (- theta) phi dx dy m n
  == raw_phaseQ sin cos theta phi dx dy (- m) (- n).
Proof.
  unfold raw_phaseQ, dphi_xQ, dphi_yQ. apply Qmod_comp.
  rewrite !inject_Z_opp, sin_mirror.
  generalize (180 / np_pi), (sin (theta * (np_pi / 180))),
             (cos (phi * (np_pi / 180))), (sin (phi * (np_pi / 180))), kQ.
  intros. ring.
Qed.

Lemma raw_phases_mirror theta phi :
  Forall2 Qeq (raw_phases sin cos (- theta) phi)
              (rev (raw_phases sin cos theta phi)).
Proof.
  unfold raw_phases, grid_offsets. cbn [flat_map map app rev].
  repeat (constructor; [apply raw_phase_mirror|]). constructor.
Qed.

Lemma steering_by_rotation theta phi W :
  steering_phases sin cos (Fin theta) (Fin phi) None None W
  = match _rotate_into_window (map Fin (raw_phases sin cos theta phi)) W default_atol with
    | Ok (rotated, c, span) =>
        Ok (fold_left (fun ph '(val, (j, i)) => setitem2 ph j i val)
              (combine rotated
                 [(0, 0); (1, 0); (2, 0); (0, 1); (1, 1); (2, 1);
                  (0, 2); (1, 2); (2, 2)]%nat)
              np_zeros_3x3,
            mk_info c span)
    | Raise e => Raise e
    end.
Proof.
  unfold steering_phases.
  pose proof (base_loop_Fin sin cos theta phi None None) as E.
  cbn [option_map] in E. rewrite E. clear E.
  change (map fst _) with (map Fin (raw_phases sin cos theta phi)).
  destruct (_rotate_into_window _ W default_atol) as [[[rot c] s]|e]; reflexivity.
Qed.

Lemma mirrored_run fs theta phi path idx W :
  match ris_voltage_vector sin cos fs (Fin theta) (Fin phi) path idx W,
        ris_voltage_vector sin cos fs (Fin (- theta)) (Fin phi) path idx W with
  | Ok (vec, _, _, inf), Ok (vec', _, _, inf') =>
      Forall2 F.same vec' (rev vec) /\
      F.same (rotation_deg inf') (rotation_deg inf) /\
      F.same (span_deg inf') (span_deg inf)
  | Raise e, Raise e' => e' = e
  | _, _ => False
  end.
Proof.
  unfold ris_voltage_vector, np_load.
  destruct (fs path) as [data|]; cbn [bind]; [|reflexivity].
  destruct (coefficients data) as [coeffs|]; cbn [bind key]; [|reflexivity].
  rewrite !steering_by_rotation.
  pose proof (rotate_reversed _ _ W default_atol (raw_phases_mirror theta phi)) as H.
  destruct (_rotate_into_window (map Fin (raw_phases sin cos theta phi)) W default_atol)
    as [[[rot c] s]|e] eqn:E;
  destruct (_rotate_into_window (map Fin (raw_phases sin cos (- theta) phi)) W default_atol)
    as [[[rot' c'] s']|e'] eqn:E'; cbn [bind]; try contradiction; [|now subst].
  destruct H as (Hrot & Hc & Hs).
  destruct (getitem_int coeffs idx) as [row|e]; cbn [bind]; [|reflexivity].
  apply rotate_length in E. rewrite length_map in E.
  do 10 (destruct rot as [|? rot]; try discriminate E).
  cbn [rev app] in Hrot.
  repeat match goal with
         | H : Forall2 _ _ (_ :: _) |- _ => inversion H; subst; clear H
         | H : Forall2 _ _ [] |- _ => inversion H; subst; clear H
         end.
  cbn. split; [|split; assumption].
  repeat (constructor; [apply round2_same; apply volt_map_same; assumption|]).
  constructor.
Qed.
End Mirror.

(** X18.  Mirroring the elevation reverses the voltage vector.  For a sine
    that is odd, [ris_voltage_vector] at [(- theta, phi)] returns the vector
    of [(theta, phi)] read backwards, with the same rotation and span, and
    raises the same error where that call raises. *)
Theorem mirrored_elevation_reverses_vector :
  forall (sin cos : Q -> Q) (fs : string -> option npz) (theta phi : Q)
         (path : string) (idx : Z) (max_phase : float64),
    (forall x y, x == y -> sin x == sin y) ->
    (forall x, sin (- x) == - sin x) ->
    match ris_voltage_vector sin cos fs (Fin theta) (Fin phi) path idx max_phase,
          ris_voltage_vector sin cos fs (Fin (- theta)) (Fin phi) path idx max_phase
    with
    | Ok (vec, _, _, inf), Ok (vec', _, _, inf') =>
        Forall2 F.same vec' (rev vec) /\
        F.same (rotation_deg inf') (rotation_deg inf) /\
        F.same (span_deg inf') (span_deg inf)
    | Raise e, Raise e' => e' = e
    | _, _ => False
    end.
Proof.
  intros sin cos fs theta phi path idx W Hcomp Hodd.
  exact (mirrored_run sin cos Hcomp Hodd fs theta phi path idx W).
Qed.

Lemma sin_coarse_comp x y : x == y -> sin_coarse x == sin_coarse y.
Proof.
  intros H. unfold sin_coarse.
  assert (E : x - x ^ 3 / 6 == y - y ^ 3 / 6) by (rewrite H; reflexivity).
  rewrite (Qred_complete _ _ E). reflexivity.
Qed.

Lemma sin_coarse_odd x : sin_coarse (- x) == - sin_coarse x.
Proof.
  unfold sin_coarse. rewrite <- Qred_opp.
  assert (E : - x - (- x) ^ 3 / 6 == - (x - x ^ 3 / 6)) by field.
  rewrite (Qred_complete _ _ E). reflexivity.
Qed.

Lemma mirrored_elevation_reverses_vector_witness :
  exists vec ph vo inf vec' ph' vo' inf',
    ris_voltage_vector sin_coarse cos_coarse
      (one_table [[Fin (1 # 3); Fin (-2)]])
      (Fin 30) (Fin 50) "Utilities/coefficients.npz" 0 (Fin 290)
    = Ok (vec, ph, vo, inf) /\
    ris_voltage_vector sin_coarse cos_coarse
      (one_table [[Fin (1 # 3); Fin (-2)]])
      (Fin (- (30))) (Fin 50) "Utilities/coefficients.npz" 0 (Fin 290)
    = Ok (vec', ph', vo', inf') /\
    Forall2 F.same vec' (rev vec) /\
    F.same (rotation_deg inf') (rotation_deg inf) /\
    F.same (span_deg inf') (span_deg inf).
Proof.
  pose proof (mirrored_elevation_reverses_vector sin_coarse cos_coarse
                (one_table [[Fin (1 # 3); Fin (-2)]]) 30 50
                "Utilities/coefficients.npz" 0%Z (Fin 290)
                sin_coarse_comp sin_coarse_odd) as H.
  assert (E : exists r, ris_voltage_vector sin_coarse cos_coarse
                (one_table [[Fin (1 # 3); Fin (-2)]])
                (Fin 30) (Fin 50) "Utilities/coefficients.npz" 0 (Fin 290) = Ok r)
    by (eexists; vm_compute; reflexivity).
  assert (E' : exists r, ris_voltage_vector sin_coarse cos_coarse
                (one_table [[Fin (1 # 3); Fin (-2)]])
                (Fin (- (30))) (Fin 50) "Utilities/coefficients.npz" 0 (Fin 290) = Ok r)
    by (eexists; vm_compute; reflexivity).
  destruct E as [[[[vec ph] vo] inf] E], E' as [[[[vec' ph'] vo'] inf'] E'].
  rewrite E, E' in H.
  exists vec, ph, vo, inf, vec', ph', vo', inf'. auto.
Defined.
